(** * CodingTool (superagi/tools/code/write_code.py)

    A shallow embedding of [CodingTool._execute] and
    [CodingTool.write_codes_to_file]: the regular expression that cuts the
    model response into file records, the path resolution, the persist
    routine with its catalog session, and the orchestrating loop.

    Python [str] values are sequences of Unicode code points: a character is
    a code point in [N], a string a [list N]. *)

From Stdlib Require Import NArith String Ascii Bool Lia.
From stdpp Require Import base list gmap.

Local Open Scope string_scope.
Local Open Scope list_scope.
Local Open Scope N_scope.

(** ** Strings *)

Abbreviation str := (list N).

(** A literal of the source, as code points. *)
Definition lit (s : string) : str := map N_of_ascii (list_ascii_of_string s).

(** Lines of text, each closed by a newline. *)
Definition text (ls : list string) : str := concat (map (fun l => lit l ++ [10]) ls).

Definition nl : N := 10.        (* "\n" *)
Definition bt : N := 96.        (* the backtick *)
Definition slash : N := 47.     (* "/" *)
Definition fence : str := [bt; bt; bt].

(** [Py_UNICODE_ISSPACE]: the characters [\s] matches in a [str] pattern
    ([\S] is its complement) and the ones [str.strip()] removes. *)
Definition is_space (c : N) : bool :=
  ((9 <=? c) && (c <=? 13)) || ((28 <=? c) && (c <=? 32))
  || (c =? 133) || (c =? 160) || (c =? 5760)
  || ((8192 <=? c) && (c <=? 8202))
  || (c =? 8232) || (c =? 8233) || (c =? 8239) || (c =? 8287) || (c =? 12288).

Definition non_space (c : N) : bool := negb (is_space c).

(** [s.startswith(p)] *)
Fixpoint startswith (s p : str) {struct p} : bool :=
  match p, s with
  | [], _ => true
  | a :: p', b :: s' => (a =? b) && startswith s' p'
  | _ :: _, [] => false
  end.

(** [s.endswith(p)] *)
Definition endswith (s p : str) : bool := startswith (rev s) (rev p).

(** [sub in s] *)
Fixpoint contains (s sub : str) : bool :=
  startswith s sub ||
  match s with
  | [] => false
  | _ :: s' => contains s' sub
  end.

(** [s.split(sep)] for a non-empty [sep]: [cur] is the piece being read
    (reversed), [skip] the characters of a separator still to pass. *)
Fixpoint split_from (sep cur : str) (skip : nat) (s : str) : list str :=
  match s with
  | [] => [rev cur]
  | c :: s' =>
    match skip with
    | S k => split_from sep cur k s'
    | O => if startswith s sep
           then rev cur :: split_from sep [] (length sep - 1) s'
           else split_from sep (c :: cur) 0 s'
    end
  end.

Definition split (s sep : str) : list str := split_from sep [] 0 s.

(** [s.strip()] *)
Fixpoint lstrip (s : str) : str :=
  match s with
  | c :: s' => if is_space c then lstrip s' else s
  | [] => []
  end.

Definition strip (s : str) : str := rev (lstrip (rev (lstrip s))).

(** [s.replace(old, new)] for a non-empty [old]. *)
Fixpoint replace_from (old new : str) (skip : nat) (s : str) : str :=
  match s with
  | [] => []
  | c :: s' =>
    match skip with
    | S k => replace_from old new k s'
    | O => if startswith s old
           then new ++ replace_from old new (length old - 1) s'
           else c :: replace_from old new 0 s'
    end
  end.

Definition replace (s old new : str) : str := replace_from old new 0 s.

(** ** Regular expressions

    The fragment of Python's [re] that the pattern of [_execute] uses, with
    the backtracking order of the engine: a lazy quantifier tries the
    continuation before it takes one more character, a greedy one after. *)

Inductive regex : Type :=
| Lit (c : N)                       (* one literal character *)
| PlusLazy (cls : N -> bool)        (* cls+? *)
| PlusGreedy (cls : N -> bool)      (* cls+ *)
| Group (r : regex)                 (* ( r ) *)
| Seq (r1 r2 : regex).

Section Backtracking.
Context {A : Type}.

Fixpoint lazy_plus (cls : N -> bool) (s : str) (k : str -> option A) : option A :=
  match s with
  | [] => None
  | c :: s' =>
    if cls c then
      match k s' with
      | Some a => Some a
      | None => lazy_plus cls s' k
      end
    else None
  end.

Fixpoint greedy_plus (cls : N -> bool) (s : str) (k : str -> option A) : option A :=
  match s with
  | [] => None
  | c :: s' =>
    if cls c then
      match greedy_plus cls s' k with
      | Some a => Some a
      | None => k s'
      end
    else None
  end.

(** [exec r s caps k]: match [r] at the head of [s], then run [k] on the
    rest; [caps] are the groups closed so far, in order. *)
Fixpoint exec (r : regex) (s : str) (caps : list str)
         (k : str -> list str -> option A) : option A :=
  match r with
  | Lit c =>
    match s with
    | c' :: s' => if c =? c' then k s' caps else None
    | [] => None
    end
  | PlusLazy cls => lazy_plus cls s (fun s' => k s' caps)
  | PlusGreedy cls => greedy_plus cls s (fun s' => k s' caps)
  | Group r1 =>
    exec r1 s caps
         (fun s' caps' => k s' (caps' ++ [take (length s - length s') s]))
  | Seq r1 r2 => exec r1 s caps (fun s' caps' => exec r2 s' caps' k)
  end.
End Backtracking.

(** The groups and the unread rest of a match anchored at the head of [s]. *)
Definition match_at (r : regex) (s : str) : option (list str * str) :=
  exec r s [] (fun rest caps => Some (caps, rest)).

(** A match object: its span in the subject and its groups. *)
Record re_match : Type := MkMatch {
  m_start : nat;
  m_end : nat;
  m_groups : list str
}.

(** [m.group(i)] for [i >= 1]. *)
Definition group (m : re_match) (i : nat) : str := nth (i - 1) (m_groups m) [].

(** [re.finditer]: the leftmost match from each position, the search
    resuming where the previous match ended. [skip] counts the characters
    of the last match still to pass. Only patterns that match no empty
    text are in the fragment. *)
Fixpoint scan (r : regex) (pos skip : nat) (s : str) : list re_match :=
  match s with
  | [] => []
  | _ :: s' =>
    match skip with
    | S k => scan r (S pos) k s'
    | O =>
      match match_at r s with
      | Some (caps, rest) =>
        let n := (length s - length rest)%nat in
        MkMatch pos (pos + n) caps :: scan r (S pos) (n - 1) s'
      | None => scan r (S pos) 0 s'
      end
    end
  end.

Definition finditer (r : regex) (s : str) : list re_match := scan r 0 0 s.

(** [re.sub] of a one-character class by the empty string. *)
Definition re_sub_class (cls : N -> bool) (s : str) : str :=
  filter (fun c => cls c = false) s.

(** ** The patterns of [_execute] *)

Definition any_char (_ : N) : bool := true.     (* [.] under re.DOTALL *)

(** r"(\S+?)\n```\S+\n(.+?)```" with re.DOTALL *)
Definition regex_blocks : regex :=
  Seq (Group (PlusLazy non_space))
 (Seq (Lit nl)
 (Seq (Lit bt) (Seq (Lit bt) (Seq (Lit bt)
 (Seq (PlusGreedy non_space)
 (Seq (Lit nl)
 (Seq (Group (PlusLazy any_char))
 (Seq (Lit bt) (Seq (Lit bt) (Lit bt)))))))))).

(** The class of [re.sub]'s pattern: the characters < > | ? * and the
    double quote (code point 34). *)
Definition forbidden (c : N) : bool :=
  (c =? 60) || (c =? 62) || (c =? 34) || (c =? 124) || (c =? 63) || (c =? 42).

(** ** Exceptions and effects

    Every call across a boundary (catalog, file system, remote store,
    model) either completes or raises an [Exception]; what each call does is
    fixed by an environment, call site by call site. The trace records the
    calls in order. Only exceptions below [Exception] are modelled, which is
    what both handlers of the source catch; logging does not raise. *)

Inductive exn : Type :=
| Exception (msg : str)              (* raised by a collaborator *)
| UnboundLocalError (var : str)      (* a local read before it was assigned *)
| AttributeError (msg : str)         (* an attribute that the object lacks *)
| KeyError (key : str)               (* a key that the dict lacks *)
| TypeError (msg : str).             (* an argument of the wrong type *)

(** [str(e)]; the text for UnboundLocalError is the one of Python 3.11,
    the text for KeyError the key between single quotes (the [repr] of a
    key without quotes or escapes). *)
Definition str_of_exn (e : exn) : str :=
  match e with
  | Exception msg => msg
  | UnboundLocalError var =>
    lit "cannot access local variable '" ++ var
    ++ lit "' where it is not associated with a value"
  | AttributeError msg => msg
  | KeyError key => [39] ++ key ++ [39]
  | TypeError msg => msg
  end.

Inductive outcome (A : Type) : Type :=
| Normal (a : A)
| Raised (e : exn).
Arguments Normal {A} a.
Arguments Raised {A} e.

(** Modelled from the spec: the ResourceEntry row that
    [ResourceHelper.make_written_file_resource] builds (the class is not
    among the sources), with the two fields the tool reads, [storage_type]
    and [path]. *)
Record Resource : Type := MkResource {
  storage_type : str;
  path : str
}.

Inductive op : Type :=
| ConnectDb                          (* connect_db() *)
| MakeSessionFactory                 (* sessionmaker(bind=engine) *)
| OpenSession                        (* Session() *)
| OpenWrite (p : str)                (* open(p, mode="w") *)
| FileWrite (p data : str)           (* code_file.write(data) *)
| OpenRead (p : str)                 (* open(p, 'r') *)
| CloseWritten (p : str)             (* leaving the with block of the write *)
| CloseRead (p : str)                (* leaving the with block of the read *)
| MakeResource (file_name : str)     (* ResourceHelper.make_written_file_resource *)
| SessionAdd (r : Resource)          (* session.add(resource) *)
| SessionCommit                      (* session.commit() *)
| SessionFlush                       (* session.flush() *)
| NewS3Helper                        (* S3Helper() *)
| UploadFile (p : str)               (* s3_helper.upload_file(code_file, path=p) *)
| SessionClose                       (* session.close(), line 90 *)
| SessionCloseOnError                (* session.close(), line 93 *)
| ChatCompletion (prompt : str).     (* self.llm.chat_completion(messages, ...) *)

Inductive event : Type :=
| Enter (file_name content : str)    (* write_codes_to_file entered *)
| Did (o : op) (ok : bool)           (* a call, and whether it completed *)
| LogInfo (msg : str)
| LogError (msg : str).

(** What one invocation of [write_codes_to_file] finds around it. *)
Record env : Type := MkEnv {
  fail : op -> option exn;                       (* the calls that raise *)
  config_root : option str;                      (* get_config('RESOURCES_OUTPUT_ROOT_DIR') *)
  cwd : str;                                     (* os.getcwd() *)
  make_written_file_resource : str -> option Resource
}.

Definition M (A : Type) : Type := (list event * outcome A)%type.

Definition ret {A} (a : A) : M A := ([], Normal a).
Definition raise {A} (e : exn) : M A := ([], Raised e).
Definition emit (ev : event) : M unit := ([ev], Normal tt).

Definition bind {A B} (m : M A) (f : A -> M B) : M B :=
  match m with
  | (t, Normal a) => let '(t', r) := f a in (t ++ t', r)
  | (t, Raised e) => (t, Raised e)
  end.

Notation "'let!' x ':=' m 'in' k" := (bind m (fun x => k))
  (at level 10, x pattern, m at level 100, k at level 200).
Notation "m '>>' k" := (bind m (fun _ => k))
  (at level 69, right associativity).

(** A boundary call: it raises what the environment says, or completes. *)
Definition prim (e : env) (o : op) : M unit :=
  match fail e o with
  | Some ex => ([Did o false], Raised ex)
  | None => ([Did o true], Normal tt)
  end.

(** [try: body except Exception as e: handler(e)] *)
Definition try_except {A} (body : M A) (handler : exn -> M A) : M A :=
  match body with
  | (t, Raised ex) => let '(t', r) := handler ex in (t ++ t', r)
  | (t, Normal a) => (t, Normal a)
  end.

(** A [try] whose first statements assign a local that the handler reads:
    the handler gets [None] when the exception came before the assignment
    completed. *)
Definition try_except_local {S A} (assign : M S) (body : S -> M A)
           (handler : option S -> exn -> M A) : M A :=
  match assign with
  | (t, Raised ex) => let '(t', r) := handler None ex in (t ++ t', r)
  | (t, Normal s) =>
    let '(t', r) := try_except (body s) (handler (Some s)) in (t ++ t', r)
  end.

(** [with open(...) as f: body]: the file is closed on the way out, also
    when [body] raised; an exception of the close replaces the pending one. *)
Definition with_open {A} (e : env) (open close : op) (body : M A) : M A :=
  prim e open >>
  match body with
  | (t, Normal a) => let '(t', r) := prim e close in
                     (t ++ t', match r with Normal _ => Normal a | Raised ex => Raised ex end)
  | (t, Raised ex) => let '(t', r) := prim e close in
                      (t ++ t', match r with Normal _ => Raised ex | Raised ex' => Raised ex' end)
  end.

(** ** Path resolution (lines 65-72) *)

Definition absolute_root (root_dir cwd : str) : str :=
  if startswith root_dir [slash] then root_dir else cwd ++ [slash] ++ root_dir.

Definition closed_root (root_dir : str) : str :=
  if endswith root_dir [slash] then root_dir else root_dir ++ [slash].

Definition final_path (root_dir : option str) (cwd code_file_name : str) : str :=
  match root_dir with
  | Some root_dir => closed_root (absolute_root root_dir cwd) ++ code_file_name
  | None => cwd ++ [slash] ++ code_file_name
  end.

(** ** write_codes_to_file *)

Inductive session_handle : Type := TheSession.

Definition eqb_str (a b : str) : bool := bool_decide (a = b).

Definition msg_saved : str := lit "Codes saved successfully".
Definition msg_error_saving : str := lit "Error saving codes to file: ".

(** Lines 61-63: the statements up to the assignment of [session]. *)
Definition open_session (e : env) : M session_handle :=
  prim e ConnectDb >> prim e MakeSessionFactory >> prim e OpenSession >>
  ret TheSession.

(** Lines 65-91: the rest of the [try] block. *)
Definition save_and_register (e : env) (codes_content code_file_name : str)
           (session : session_handle) : M str :=
  let final_path := final_path (config_root e) (cwd e) code_file_name in
  with_open e (OpenWrite final_path) (CloseWritten final_path)
            (prim e (FileWrite final_path codes_content)) >>
  let! resource :=
     with_open e (OpenRead final_path) (CloseRead final_path)
               (prim e (MakeResource code_file_name) >>
                ret (make_written_file_resource e code_file_name)) in
  match resource with
  | Some resource =>
    prim e (SessionAdd resource) >>
    prim e SessionCommit >>
    prim e SessionFlush >>
    if eqb_str (storage_type resource) (lit "S3")
    then prim e NewS3Helper >> prim e (UploadFile (path resource))
    else ret tt
  | None => ret tt
  end >>
  emit (LogInfo (lit "Code " ++ code_file_name ++ lit " saved successfully")) >>
  prim e SessionClose >>
  ret msg_saved.

(** Lines 92-94: the handler reads the local [session]. *)
Definition on_error (e : env) (session : option session_handle) (ex : exn) : M str :=
  match session with
  | None => raise (UnboundLocalError (lit "session"))
  | Some _ => prim e SessionCloseOnError >> ret (msg_error_saving ++ str_of_exn ex)
  end.

Definition write_codes_to_file (e : env) (codes_content code_file_name : str) : M str :=
  emit (Enter code_file_name codes_content) >>
  try_except_local (open_session e)
                   (save_and_register e codes_content code_file_name)
                   (on_error e).

(** ** _execute *)

(** What a result dict of the model holds under a key: a [str], or [None]
    (a result without text); values of other types are not modelled. *)
Inductive value : Type :=
| PyStr (s : str)
| PyNone.

Definition msg_no_chat_completion : str :=
  lit "'NoneType' object has no attribute 'chat_completion'".
(** The message of [re.finditer] for a subject that is [None] (Python 3.11). *)
Definition msg_not_a_string : str :=
  lit "expected string or bytes-like object, got 'NoneType'".

(** The tool object and what surrounds a run. A run calls
    [write_codes_to_file] several times: the [k]-th call (from 0) finds the
    environment [call_env k]. *)
Record world : Type := MkWorld {
  goals : list str;                               (* self.goals *)
  add_list_items_to_string : list str -> str;     (* AgentPromptBuilder's *)
  llm : option (str -> outcome (gmap str value));
    (* self.llm, [None] by default; when set, its [chat_completion] as a
       function of the prompt of the one system message: it raises, or
       returns a dict ([max_tokens] is handed on and plays no part here) *)
  call_env : nat -> env
}.

(** Lines 108-141. *)
Definition prompt_template : str :=
  text [ "You are a super smart developer who practices good Development for writing code according to a specification.";
         "";
         "            Your high-level goal is:";
         "            {goals}";
         "";
         "            Use this specs for generating the code:";
         "            {spec}";
         "";
         "            You will get instructions for code to write.";
         "            You will write a very long answer. Make sure that every detail of the architecture is, in the end, implemented as code.";
         "            Make sure that every detail of the architecture is, in the end, implemented as code.";
         "";
         "            Think step by step and reason yourself to the right decisions to make sure we get it right.";
         "            You will first lay out the names of the core classes, functions, methods that will be necessary, as well as a quick comment on their purpose.";
         "";
         "            Then you will output the content of each file including ALL code.";
         "            Each file must strictly follow a markdown code block format, where the following tokens must be replaced such that";
         "            [FILENAME] is the lowercase file name including the file extension,";
         "            [LANG] is the markup code block language for the code's language, and [CODE] is the code:";
         "";
         "            [FILENAME]";
         "            ```[LANG]";
         "            [CODE]";
         "            ```";
         "" ]
  ++ lit "            You will start with the " ++ [34] ++ lit "entrypoint" ++ [34]
  ++ text [ " file, then go to the ones that are imported by that file, and so on.";
         "            Please note that the code should be fully functional. No placeholders.";
         "";
         "            Follow a language and framework appropriate best practice file naming convention.";
         "            Make sure that files contain all imports, types etc. Make sure that code in different files are compatible with each other.";
         "            Ensure to implement all code, if you are unsure, write a plausible implementation.";
         "            Include module dependency or package manager dependency definition file.";
         "            Before you finish, double check that all parts of the architecture is present in the files." ]
  ++ lit "            ".

Definition msg_success : str := lit "codes generated and saved successfully".
Definition msg_error_generating : str := lit "Error generating codes: ".
Definition README_md : str := lit "README.md".

(** Truth value of a [str]. *)
Definition truthy (s : str) : bool :=
  match s with
  | [] => false
  | _ :: _ => true
  end.

(** Line 150: [result["content"]] handed to [re.finditer] as the subject:
    the key may be missing, and what it holds may be no text. *)
Definition content_of (result : gmap str value) : M str :=
  match result !! lit "content" with
  | Some (PyStr content) => ret content
  | Some PyNone => raise (TypeError msg_not_a_string)
  | None => raise (KeyError (lit "content"))
  end.

(** Lines 142-146, and the read of the content on line 150. Without a
    model ([self.llm] is [None]) the attribute lookup raises and no call is
    made; a call that returned counts as completed whatever its result
    holds. *)
Definition ask_model (w : world) (spec_description : str) : M str :=
  let prompt := replace prompt_template (lit "{goals}")
                        (add_list_items_to_string w (goals w)) in
  let prompt := replace prompt (lit "{spec}") spec_description in
  match llm w with
  | None => raise (AttributeError msg_no_chat_completion)
  | Some chat_completion =>
    match chat_completion prompt with
    | Normal result => emit (Did (ChatCompletion prompt) true) >> content_of result
    | Raised ex => ([Did (ChatCompletion prompt) false], Raised ex)
    end
  end.

(** Line 155 and line 158. *)
Definition file_name_of (m : re_match) : str := re_sub_class forbidden (group m 1).
Definition code_of (m : re_match) : str := group m 2.

(** Lines 153-164: the loop over the matches. [n] counts the calls of
    [write_codes_to_file] made so far; the result holds the count after the
    loop and the value of an early [return], if one was taken. *)
Fixpoint save_files (w : world) (n : nat) (matches : list re_match)
  : M (nat * option str) :=
  match matches with
  | [] => ret (n, None)
  | m :: matches' =>
    let file_name := file_name_of m in
    let code := code_of m in
    if truthy (strip file_name) then
      let! save_result := write_codes_to_file (call_env w n) code file_name in
      if startswith save_result (lit "Error")
      then ret (S n, Some save_result)
      else save_files w (S n) matches'
    else save_files w n matches'
  end.

(** Lines 166-174. *)
Definition save_readme (w : world) (n : nat) (content : str) : M str :=
  let split_result := split content fence in
  if (0 <? length split_result)%nat then
    let readme := nth 0 split_result [] in
    let! save_readme_result := write_codes_to_file (call_env w n) readme README_md in
    if startswith save_readme_result (lit "Error")
    then ret save_readme_result
    else ret msg_success
  else ret msg_success.

Definition _execute (w : world) (spec_description : str) : M str :=
  try_except
    (let! content := ask_model w spec_description in
     let matches := finditer regex_blocks content in
     let! (n, returned) := save_files w 0 matches in
     match returned with
     | Some save_result => ret save_result
     | None => save_readme w n content
     end)
    (fun ex => emit (LogError (str_of_exn ex)) >>
               ret (msg_error_generating ++ str_of_exn ex)).

(** The file records of a response: what the loop takes from each match. *)
Definition file_records (content : str) : list (str * str) :=
  map (fun m => (file_name_of m, code_of m)) (finditer regex_blocks content).

(** ** What a trace shows *)

(** The arguments of the calls of [write_codes_to_file], in order. *)
Fixpoint calls (t : list event) : list (str * str) :=
  match t with
  | Enter file_name content :: t' => (file_name, content) :: calls t'
  | _ :: t' => calls t'
  | [] => []
  end.

(** The destinations handed to [upload_file], in order. *)
Fixpoint uploads (t : list event) : list str :=
  match t with
  | Did (UploadFile p) _ :: t' => p :: uploads t'
  | _ :: t' => uploads t'
  | [] => []
  end.

(** A file, as the calls made on it leave it. Text handed to [write()]
    sits in the buffer of the file object and reaches the file when the
    [with] block closes it; when the write or the close raises, any part of
    the text may have reached the file. *)
Inductive file : Type :=
| Holds (content : str)       (* closed; the file holds [content] *)
| Pending (written : str)     (* open, truncated; [written] is still to be flushed *)
| Torn.                       (* truncated; its content is not determined *)

(** The files, by identity: two path texts may name one file
    (./README.md and README.md, links, letter case), so the files are
    keyed by what [file_of] makes of a path; nothing is assumed of it. *)
Abbreviation files := (gmap str file).

(** The files after a trace: [open(p, "w")] creates or truncates; a
    completed write adds to what is pending; a completed close flushes it. *)
Definition fs_step (file_of : str -> str) (fs : files) (ev : event) : files :=
  match ev with
  | Did (OpenWrite p) true => <[file_of p := Pending []]> fs
  | Did (FileWrite p data) true =>
    match fs !! file_of p with
    | Some (Pending written) => <[file_of p := Pending (written ++ data)]> fs
    | _ => fs
    end
  | Did (FileWrite p _) false => <[file_of p := Torn]> fs
  | Did (CloseWritten p) true =>
    match fs !! file_of p with
    | Some (Pending written) => <[file_of p := Holds written]> fs
    | _ => fs
    end
  | Did (CloseWritten p) false => <[file_of p := Torn]> fs
  | _ => fs
  end.

Definition fs_after (file_of : str -> str) (fs : files) (t : list event) : files :=
  foldl (fs_step file_of) fs t.

(** Whether a call of some kind completed, or was made at all. *)
Definition completed (kind : op -> bool) (t : list event) : bool :=
  existsb (fun ev => match ev with Did o true => kind o | _ => false end) t.

Definition attempted (kind : op -> bool) (t : list event) : bool :=
  existsb (fun ev => match ev with Did o _ => kind o | _ => false end) t.

Definition is_open_session (o : op) : bool :=
  match o with OpenSession => true | _ => false end.
Definition is_session_close (o : op) : bool :=
  match o with SessionClose | SessionCloseOnError => true | _ => false end.
Definition is_file_write (o : op) : bool :=
  match o with FileWrite _ _ => true | _ => false end.
Definition is_commit (o : op) : bool :=
  match o with SessionCommit => true | _ => false end.
Definition is_flush (o : op) : bool :=
  match o with SessionFlush => true | _ => false end.

(** The paths opened for writing, in order. *)
Fixpoint opened_for_write (t : list event) : list str :=
  match t with
  | Did (OpenWrite p) _ :: t' => p :: opened_for_write t'
  | _ :: t' => opened_for_write t'
  | [] => []
  end.

(** ** Responses made of blocks

    The layout the prompt asks the model for: prose, then blocks of a file
    name line, an opening fence with a language tag, the code and a closing
    fence, with prose between them. *)

Record block : Type := MkBlock {
  b_name : str;
  b_lang : str;
  b_code : str
}.

Definition block_text (b : block) : str :=
  b_name b ++ nl :: fence ++ b_lang b ++ nl :: b_code b ++ fence.

Definition response (intro : str) (bs : list (block * str)) : str :=
  intro ++ concat (map (fun bp => block_text (fst bp) ++ snd bp) bs).

(** A token: one character or more, none of them white space. *)
Definition token (s : str) : bool := truthy s && forallb non_space s.

(** The code of a block has a first character, and the first fence after
    that character is the block's closing fence. *)
Definition closes_first (code : str) : bool :=
  match code with
  | [] => false
  | _ :: body => negb (contains (body ++ [bt; bt]) fence)
  end.

Definition well_formed_block (b : block) : bool :=
  token (b_name b) && negb (startswith (b_name b) fence)
  && token (b_lang b) && closes_first (b_code b).

(** Prose around the blocks: it holds no fence, and it is empty or ends
    with white space, so that the file name after it is a whole token. *)
Definition prose (s : str) : bool :=
  negb (contains s fence) &&
  match last s with
  | Some c => is_space c
  | None => true
  end.

Definition well_formed (intro : str) (bs : list (block * str)) : bool :=
  prose intro && forallb (fun bp => well_formed_block (fst bp) && prose (snd bp)) bs.

(** The text before the first fence of [s], all of [s] when it has none. *)
Fixpoint before_first_fence (s : str) : str :=
  if startswith s fence then []
  else match s with
       | [] => []
       | c :: s' => c :: before_first_fence s'
       end.

(** The longest run of non-space characters at the head of [s]. *)
Fixpoint leading_run (s : str) : str :=
  match s with
  | c :: s' => if non_space c then c :: leading_run s' else []
  | [] => []
  end.

(** The maximal run of non-space characters that ends just before
    position [e] of [s]. *)
Definition run_before (s : str) (e : nat) : str :=
  rev (leading_run (rev (take e s))).

(** The captured name as the specification words it: for every match,
    the maximal run of non-space characters before the newline of the
    fence line. *)
Definition name_is_maximal_run (s : str) : Prop :=
  forall i m,
    finditer regex_blocks s !! i = Some m ->
    group m 1 = run_before s (m_start m + length (group m 1)).

(** The upload as the specification words it: a file written, an S3 entry
    registered and committed, hence exactly one upload to the entry's path. *)
Definition upload_once_when_committed (e : env) (content name : str) : Prop :=
  forall r,
    completed is_file_write (fst (write_codes_to_file e content name)) = true ->
    make_written_file_resource e name = Some r ->
    storage_type r = lit "S3" ->
    completed is_commit (fst (write_codes_to_file e content name)) = true ->
    uploads (fst (write_codes_to_file e content name)) = [path r].

(** A root that ends with one separator and no more. *)
Definition single_trailing_sep (r : str) : bool :=
  endswith r [slash] && negb (endswith r [slash; slash]).

(** The six characters that the specification names: < > | ? * and the
    double quote, by their code points. *)
Definition six_characters : str := [60; 62; 34; 124; 63; 42].

(** A name as the specification words it: the token with every occurrence
    of the given characters removed. *)
Definition without (chars s : str) : str := filter (fun c => c ∉ chars) s.

(** A block as the specification words it: a name token, a fence with a
    language tag, then any content up to the closing fence, an empty one
    included. *)
Definition block_as_worded (b : block) : bool :=
  token (b_name b) && negb (startswith (b_name b) fence)
  && token (b_lang b) && negb (contains (b_code b ++ [bt; bt]) fence).

Definition response_as_worded (intro : str) (bs : list (block * str)) : bool :=
  prose intro && forallb (fun bp => block_as_worded (fst bp) && prose (snd bp)) bs.

(** The parse as the specification words it: N such blocks give N records,
    in order, each named by its token without the six characters. *)
Definition parse_as_worded : Prop :=
  forall intro bs,
    response_as_worded intro bs = true ->
    file_records (response intro bs)
    = map (fun bp => (without six_characters (b_name (fst bp)), b_code (fst bp))) bs.

(** ** Sample environments *)

Definition env_ok (res : option Resource) : env :=
  MkEnv (fun _ => None) (Some (lit "out")) (lit "/work") (fun _ => res).

Definition s3_entry : Resource := MkResource (lit "S3") (lit "resources/main.py").

(** The catalog cannot be reached. *)
Definition env_no_db : env :=
  MkEnv (fun o => match o with
                  | ConnectDb => Some (Exception (lit "connection refused"))
                  | _ => None
                  end)
        None (lit "/work") (fun _ => None).

(** The commit completes, the flush after it raises. *)
Definition env_flush_fails : env :=
  MkEnv (fun o => match o with
                  | SessionFlush => Some (Exception (lit "connection lost"))
                  | _ => None
                  end)
        None (lit "/work") (fun _ => Some s3_entry).

(** The target directory is missing: the file cannot be opened. *)
Definition env_no_dir : env :=
  MkEnv (fun o => match o with
                  | OpenWrite _ => Some (Exception (lit "No such file or directory"))
                  | _ => None
                  end)
        None (lit "/work") (fun _ => None).

(** A model that answers every prompt with [response]. *)
Definition world_of (e : nat -> env) (response : str) : world :=
  MkWorld [] (fun _ => [])
          (Some (fun _ => Normal {[ lit "content" := PyStr response ]})) e.

Definition sample_response : str :=
  text ["Intro text"; "main.py"; "```python"; "print(1)"; "```"].

Definition world_fine : world := world_of (fun _ => env_ok None) sample_response.
Definition world_no_dir : world := world_of (fun _ => env_no_dir) sample_response.

(** A block named README.md, after a line of prose. *)
Definition readme_response : str :=
  text ["Docs"; "README.md"; "```md"; "hello"; "```"].
Definition world_readme : world := world_of (fun _ => env_ok None) readme_response.

(** Two blocks, the first without any code between its fences. *)
Definition codeless_blocks : list (block * str) :=
  [(MkBlock (lit "a.py") (lit "py") [], [nl]);
   (MkBlock (lit "b.py") (lit "py") (text ["x = 1"]), [])].

(** A block whose name holds some of the six characters. *)
Definition starred_blocks : list (block * str) :=
  [(MkBlock (lit "<ma*in>?.py") (lit "python") (text ["print(1)"]), [nl])].

(** A block whose name line holds forbidden characters only. *)
Definition unnamed_response : str :=
  text ["?*"; "```py"] ++ lit "x```".

(** A block with prose, not a file name, on the line before the fence. *)
Definition prose_only_response : str :=
  text ["Here is the code:"; "```python"; "print(1)"; "```"].

(** The closing fence of the first block runs into the next file name. *)
Definition glued_response : str :=
  text ["a"; "```x"] ++ lit "c```" ++ text ["b"; "```y"] ++ lit "z```".

(** ** Further observations *)

(** No call of the trace raised. *)
Definition all_completed (t : list event) : bool :=
  forallb (fun ev => match ev with Did _ false => false | _ => true end) t.

(** How many calls of some kind completed. *)
Fixpoint completions (kind : op -> bool) (t : list event) : nat :=
  match t with
  | Did o true :: t' => if kind o then S (completions kind t') else completions kind t'
  | _ :: t' => completions kind t'
  | [] => 0%nat
  end.

Definition is_open_write (o : op) : bool :=
  match o with OpenWrite _ => true | _ => false end.
Definition is_close_written (o : op) : bool :=
  match o with CloseWritten _ => true | _ => false end.
Definition is_make_resource (o : op) : bool :=
  match o with MakeResource _ => true | _ => false end.
Definition is_session_add (o : op) : bool :=
  match o with SessionAdd _ => true | _ => false end.

(** The prompts sent to the model, in order. *)
Fixpoint chats (t : list event) : list str :=
  match t with
  | Did (ChatCompletion prompt) _ :: t' => prompt :: chats t'
  | _ :: t' => chats t'
  | [] => []
  end.

(** Lines 142-143: the template with the goals, then the specification,
    put in. *)
Definition prompt_of (w : world) (spec_description : str) : str :=
  replace (replace prompt_template (lit "{goals}")
                   (add_list_items_to_string w (goals w)))
          (lit "{spec}") spec_description.

(** The text that comes from the model, if one does: the model is set,
    its call returns, and the result holds text under "content". *)
Definition model_text (w : world) (spec_description : str) : option str :=
  match llm w with
  | Some chat_completion =>
    match chat_completion (prompt_of w spec_description) with
    | Normal result =>
      match result !! lit "content" with
      | Some (PyStr content) => Some content
      | _ => None
      end
    | Raised _ => None
    end
  | None => None
  end.

(** The template around its two placeholders: [{goals}] stands at
    position 160, [{spec}] at position 233. *)
Definition before_goals : str := take 160 prompt_template.
Definition before_spec : str := take 66 (drop 167 prompt_template).
Definition after_spec : str := drop 239 prompt_template.

(** Whether some line of [s] starts with a fence that a non-space
    character follows: a fence line with a language tag. *)
Fixpoint has_tagged_fence (s : str) : bool :=
  (startswith s (nl :: fence) &&
   match drop 4 s with
   | c :: _ => non_space c
   | [] => false
   end)
  || match s with
     | [] => false
     | _ :: s' => has_tagged_fence s'
     end.

(** A block whose fence carries no language tag. *)
Definition untagged_response : str :=
  text ["Here it is."; "main.py"; "```"; "print(1)"; "```"].

(** The records that pass the guard of line 161. *)
Definition saved_records (content : str) : list (str * str) :=
  filter (fun rec => truthy (strip (fst rec)) = true) (file_records content).

(** The catalog is reached, the session opens, the commit raises. *)
Definition env_commit_fails : env :=
  MkEnv (fun o => match o with
                  | SessionCommit => Some (Exception (lit "commit failed"))
                  | _ => None
                  end)
        None (lit "/work") (fun _ => Some s3_entry).

(** The file opens, the write raises. *)
Definition env_disk_full : env :=
  MkEnv (fun o => match o with
                  | FileWrite _ _ => Some (Exception (lit "No space left on device"))
                  | _ => None
                  end)
        None (lit "/work") (fun _ => None).

(** The write completes, the close of its [with] block raises. *)
Definition env_close_fails : env :=
  MkEnv (fun o => match o with
                  | CloseWritten _ => Some (Exception (lit "No space left on device"))
                  | _ => None
                  end)
        None (lit "/work") (fun _ => None).

(** The model cannot be reached. *)
Definition world_no_model : world :=
  MkWorld [] (fun _ => []) (Some (fun _ => Raised (Exception (lit "timeout"))))
          (fun _ => env_ok None).

(** No model was set: [self.llm] is [None]. *)
Definition world_no_llm : world :=
  MkWorld [] (fun _ => []) None (fun _ => env_ok None).

(** The model returns a dict with an error text and no content. *)
Definition world_no_content : world :=
  MkWorld [] (fun _ => [])
          (Some (fun _ => Normal {[ lit "error" := PyStr (lit "Error: rate limit") ]}))
          (fun _ => env_ok None).

Definition world_no_db : world := world_of (fun _ => env_no_db) sample_response.

(** A file identity for the samples: the path with each /./ read as /. *)
Definition plain_path (p : str) : str := replace p (lit "/./") (lit "/").

(** A block named ./README.md, which is the file README.md. *)
Definition dotted_readme_response : str :=
  text ["Docs"; "./README.md"; "```md"; "hello"; "```"].
Definition world_dotted_readme : world :=
  world_of (fun _ => env_ok None) dotted_readme_response.

(** Two blocks, with prose before, between and after. *)
Definition two_files_response : str :=
  text ["Two files."; ""; "main.py"; "```python"; "import util"; "```"; "";
        "util.py"; "```python"; "x = 1"; "```"; "Done."].
Definition world_two_files : world :=
  world_of (fun _ => env_ok None) two_files_response.

(** * Proofs *)

Local Arguments N.eqb : simpl never.

(** ** Strings *)

Lemma startswith_app (p r : str) : startswith (p ++ r) p = true.
Proof.
  induction p as [|a p IH]; simpl; [done|].
  by rewrite N.eqb_refl, IH.
Qed.

Lemma startswith_inv (s p : str) :
  startswith s p = true -> exists r, s = p ++ r.
Proof.
  revert s. induction p as [|a p IH]; intros s H; simpl in *.
  - by exists s.
  - destruct s as [|b s]; [done|].
    apply andb_true_iff in H as [Hab H].
    apply N.eqb_eq in Hab as ->.
    destruct (IH _ H) as [r ->]. by exists r.
Qed.

Lemma startswith_fence_inv (s : str) :
  startswith s fence = true -> exists r, s = bt :: bt :: bt :: r.
Proof. intros H. apply startswith_inv in H as [r ->]. by exists r. Qed.

Lemma contains_startswith (s sub : str) :
  startswith s sub = true -> contains s sub = true.
Proof. intros H. destruct s; simpl; by rewrite H. Qed.

Lemma contains_app (a sub b : str) : contains (a ++ sub ++ b) sub = true.
Proof.
  induction a as [|c a IH]; simpl.
  - apply contains_startswith, startswith_app.
  - rewrite IH. apply orb_true_r.
Qed.

Lemma contains_false_cons (c : N) (s sub : str) :
  contains (c :: s) sub = false ->
  startswith (c :: s) sub = false /\ contains s sub = false.
Proof. simpl. intros H. by apply orb_false_iff in H. Qed.

Lemma contains_false_suffix (a b sub : str) :
  contains (a ++ b) sub = false -> contains b sub = false.
Proof.
  induction a as [|c a IH]; [done|].
  intros H. apply contains_false_cons in H as [_ H]. auto.
Qed.

Lemma is_space_nl_non : non_space nl = false.
Proof. reflexivity. Qed.

Lemma non_space_not_nl (c : N) : non_space c = true -> (nl =? c) = false.
Proof.
  intros H. destruct (N.eqb_spec nl c) as [<-|Hne]; [|reflexivity].
  discriminate H.
Qed.

(** Splitting: the head of [split] is the text before the first fence. *)

Lemma split_from_nonempty (sep cur : str) (skip : nat) (s : str) :
  split_from sep cur skip s <> [].
Proof.
  revert cur skip. induction s as [|c s IH]; intros cur skip; simpl; [done|].
  destruct skip; [|apply IH].
  destruct (startswith (c :: s) sep); [done|apply IH].
Qed.

Lemma split_from_head (cur s : str) :
  hd [] (split_from fence cur 0 s) = rev cur ++ before_first_fence s.
Proof.
  revert cur. induction s as [|c s IH]; intros cur.
  - simpl. by rewrite app_nil_r.
  - cbn [split_from before_first_fence].
    destruct (startswith (c :: s) fence) eqn:E.
    + simpl. by rewrite app_nil_r.
    + rewrite IH. simpl. by rewrite <- app_assoc.
Qed.

Lemma split_head (s : str) : nth 0 (split s fence) [] = before_first_fence s.
Proof.
  unfold split. pose proof (split_from_head [] s) as H.
  destruct (split_from fence [] 0 s); simpl in *; done.
Qed.

Lemma split_length_pos (s sep : str) : (0 <? length (split s sep))%nat = true.
Proof.
  unfold split. pose proof (split_from_nonempty sep [] 0 s).
  destruct (split_from sep [] 0 s); [done|reflexivity].
Qed.

Lemma before_first_fence_none (s : str) :
  contains s fence = false -> before_first_fence s = s.
Proof.
  induction s as [|c s IH]; intros H.
  - reflexivity.
  - apply contains_false_cons in H as [H1 H2].
    cbn [before_first_fence]. rewrite H1. by rewrite IH.
Qed.

Lemma before_first_fence_app (p rest : str) :
  contains (p ++ [bt; bt]) fence = false ->
  before_first_fence (p ++ fence ++ rest) = p.
Proof.
  induction p as [|c p IH]; intros H.
  - reflexivity.
  - change ((c :: p) ++ [bt; bt]) with (c :: (p ++ [bt; bt])) in H.
    apply contains_false_cons in H as [H1 H2].
    change ((c :: p) ++ fence ++ rest) with (c :: (p ++ fence ++ rest)).
    cbn [before_first_fence].
    assert (startswith (c :: p ++ fence ++ rest) fence = false) as ->.
    { destruct (startswith (c :: p ++ fence ++ rest) fence) eqn:E; [|done].
      apply startswith_fence_inv in E as [r E].
      destruct p as [|c1 [|c2 p]]; simplify_eq/=. }
    by rewrite IH.
Qed.

(** ** The backtracking engine *)

Section Quantifiers.
Context {A : Type}.
Implicit Types (k : str -> option A) (cls : N -> bool).

(** A lazy quantifier stops at the first length the continuation accepts. *)
Lemma lazy_plus_first cls (pre post : str) k a :
  pre <> [] -> forallb cls pre = true -> k post = Some a ->
  (forall p q, pre = p ++ q -> p <> [] -> q <> [] -> k (q ++ post) = None) ->
  lazy_plus cls (pre ++ post) k = Some a.
Proof.
  induction pre as [|c pre IH]; intros Hne Hcls Hk Hmin; [done|].
  simpl in Hcls. apply andb_true_iff in Hcls as [Hc Hcls].
  simpl. rewrite Hc.
  destruct pre as [|c' pre].
  - simpl. by rewrite Hk.
  - pose proof (Hmin [c] (c' :: pre) eq_refl ltac:(done) ltac:(done)) as Hn.
    rewrite Hn.
    apply IH; [done|done|done|].
    intros p q Hpq Hp Hq. apply (Hmin (c :: p) q); [|done|done].
    simpl. by rewrite Hpq.
Qed.

Lemma lazy_plus_inv cls (s : str) k a :
  lazy_plus cls s k = Some a ->
  exists pre post,
    s = pre ++ post /\ pre <> [] /\ forallb cls pre = true /\ k post = Some a /\
    (forall p q, pre = p ++ q -> p <> [] -> q <> [] -> k (q ++ post) = None).
Proof.
  induction s as [|c s IH]; simpl; [done|].
  destruct (cls c) eqn:Hc; [|done].
  destruct (k s) as [a'|] eqn:Hk.
  - intros [= <-]. exists [c], s. repeat split; try done.
    + simpl. by rewrite Hc.
    + intros [|x [|y p]] q Hpq Hp Hq; simplify_eq/=.
  - intros H. destruct (IH H) as (pre & post & -> & Hne & Hcls & Hk' & Hmin).
    exists (c :: pre), post. repeat split; try done.
    + simpl. by rewrite Hc.
    + intros [|x p] q Hpq Hp Hq; [done|]. simplify_eq/=.
      destruct p as [|y p]; [done|]. by apply (Hmin (y :: p) q).
Qed.

(** A greedy quantifier takes the whole run when the character after the
    run is outside the class. *)
Lemma greedy_plus_run cls (pre post : str) k a :
  pre <> [] -> forallb cls pre = true -> k post = Some a ->
  match post with c :: _ => cls c = false | [] => True end ->
  greedy_plus cls (pre ++ post) k = Some a.
Proof.
  induction pre as [|c pre IH]; intros Hne Hcls Hk Hpost; [done|].
  simpl in Hcls. apply andb_true_iff in Hcls as [Hc Hcls].
  simpl. rewrite Hc.
  destruct pre as [|c' pre].
  - simpl. destruct post as [|d post]; simpl; [done|]. by rewrite Hpost.
  - by rewrite IH.
Qed.

Lemma greedy_plus_inv cls (s : str) k a :
  greedy_plus cls s k = Some a ->
  exists pre post,
    s = pre ++ post /\ pre <> [] /\ forallb cls pre = true /\ k post = Some a.
Proof.
  revert a. induction s as [|c s IH]; intros a; simpl; [done|].
  destruct (cls c) eqn:Hc; [|done].
  destruct (greedy_plus cls s k) as [a'|] eqn:Hg.
  - intros [= <-]. destruct (IH _ eq_refl) as (pre & post & -> & Hne & Hcls & Hk).
    exists (c :: pre), post. repeat split; try done. simpl. by rewrite Hc.
  - intros Hk. exists [c], s. repeat split; try done. simpl. by rewrite Hc.
Qed.
End Quantifiers.

Lemma take_app_sub {X} (a b : list X) :
  take (length (a ++ b) - length b) (a ++ b) = a.
Proof.
  rewrite length_app.
  replace (length a + length b - length b)%nat with (length a) by lia.
  by rewrite take_app_length.
Qed.

(** The continuation that closes a block: the three backticks. *)
Lemma startswith_suffix_fence (q rest : str) :
  contains (q ++ [bt; bt]) fence = false -> q <> [] ->
  startswith (q ++ fence ++ rest) fence = false.
Proof.
  intros H Hq. destruct q as [|c q]; [done|].
  change ((c :: q) ++ [bt; bt]) with (c :: (q ++ [bt; bt])) in H.
  apply contains_false_cons in H as [H _].
  destruct (startswith ((c :: q) ++ fence ++ rest) fence) eqn:E; [|done].
  apply startswith_fence_inv in E as [r E].
  destruct q as [|c1 [|c2 q]]; simplify_eq/=.
Qed.

(** ** What the pattern matches *)

(** A block at the head of the subject is matched, with the name and the
    code as groups, whatever follows the closing fence. *)
Lemma match_at_block (name lang code rest : str) :
  token name = true -> token lang = true -> closes_first code = true ->
  match_at regex_blocks (name ++ nl :: fence ++ lang ++ nl :: code ++ fence ++ rest)
  = Some ([name; code], rest).
Proof.
  intros Hname Hlang Hcode.
  apply andb_true_iff in Hname as [Hn1 Hn2].
  apply andb_true_iff in Hlang as [Hl1 Hl2].
  unfold match_at, regex_blocks. cbn [exec].
  apply lazy_plus_first.
  - by destruct name.
  - done.
  - rewrite N.eqb_refl. cbn [fence app]. rewrite !N.eqb_refl.
    apply greedy_plus_run.
    + by destruct lang.
    + done.
    + rewrite N.eqb_refl.
      destruct code as [|c body]; [done|].
      simpl in Hcode. apply negb_true_iff in Hcode.
      apply (lazy_plus_first any_char (c :: body) (bt :: bt :: bt :: rest)).
      * done.
      * by apply forallb_forall.
      * rewrite !N.eqb_refl. rewrite !take_app_sub.
        reflexivity.
      * intros p q Hpq Hp Hq.
        destruct p as [|x p]; [done|]. injection Hpq as -> ->.
        rewrite <- app_assoc in Hcode. apply contains_false_suffix in Hcode.
        pose proof (startswith_suffix_fence q rest Hcode Hq) as E.
        change (fence ++ rest) with (bt :: bt :: bt :: rest) in E.
        unfold fence in E.
        destruct (q ++ bt :: bt :: bt :: rest) as [|a1 x1]; [done|].
        cbn [startswith] in E. destruct (bt =? a1); [|done].
        destruct x1 as [|a2 x2]; [done|].
        cbn [andb] in E. destruct (bt =? a2); [|done].
        destruct x2 as [|a3 x3]; [done|].
        cbn [andb] in E. rewrite andb_true_r in E. by rewrite E.
    + by rewrite is_space_nl_non.
  - intros p q -> Hp Hq.
    destruct q as [|x q]; [done|].
    rewrite forallb_app in Hn2. apply andb_true_iff in Hn2 as [_ Hn2].
    simpl in Hn2. apply andb_true_iff in Hn2 as [Hx _].
    cbn [app]. by rewrite (non_space_not_nl x Hx).
Qed.

Lemma startswith_mono (a x p : str) :
  startswith a p = true -> startswith (a ++ x) p = true.
Proof.
  intros H. apply startswith_inv in H as [r ->].
  rewrite <- app_assoc. apply startswith_app.
Qed.

Lemma contains_by_suffixes (body rest : str) :
  (forall p q, body = p ++ q -> q <> [] ->
               startswith (q ++ fence ++ rest) fence = false) ->
  contains (body ++ [bt; bt]) fence = false.
Proof.
  induction body as [|c body IH]; intros H; [reflexivity|].
  change ((c :: body) ++ [bt; bt]) with (c :: (body ++ [bt; bt])).
  cbn [contains]. rewrite IH.
  - rewrite orb_false_r.
    destruct (startswith (c :: body ++ [bt; bt]) fence) eqn:E; [|done].
    apply (startswith_mono _ (bt :: rest)) in E.
    rewrite <- (H [] (c :: body) eq_refl ltac:(done)).
    rewrite <- E. f_equal. simpl. by rewrite <- app_assoc.
  - intros p q -> Hq. by apply (H (c :: p) q).
Qed.

(** Conversely, whatever the pattern matches is a block. *)
Lemma match_at_inv (s : str) (caps : list str) (rest : str) :
  match_at regex_blocks s = Some (caps, rest) ->
  exists name lang code,
    caps = [name; code] /\
    s = name ++ nl :: fence ++ lang ++ nl :: code ++ fence ++ rest /\
    token name = true /\ token lang = true /\ closes_first code = true.
Proof.
  unfold match_at, regex_blocks. cbn [exec]. intros H.
  apply lazy_plus_inv in H as (name & post & -> & Hne & Hcls & Hk & _).
  destruct post as [|c1 post]; [done|].
  destruct (N.eqb_spec nl c1) as [<-|]; [|done].
  destruct post as [|c2 post]; [done|].
  destruct (N.eqb_spec bt c2) as [<-|]; [|done].
  destruct post as [|c3 post]; [done|].
  destruct (N.eqb_spec bt c3) as [<-|]; [|done].
  destruct post as [|c4 post]; [done|].
  destruct (N.eqb_spec bt c4) as [<-|]; [|done].
  apply greedy_plus_inv in Hk as (lang & post2 & -> & Hne2 & Hcls2 & Hk).
  destruct post2 as [|c5 post2]; [done|].
  destruct (N.eqb_spec nl c5) as [<-|]; [|done].
  apply lazy_plus_inv in Hk as (code & post3 & -> & Hne3 & _ & Hk & Hmin).
  destruct post3 as [|c6 post3]; [done|].
  destruct (N.eqb_spec bt c6) as [<-|]; [|done].
  destruct post3 as [|c7 post3]; [done|].
  destruct (N.eqb_spec bt c7) as [<-|]; [|done].
  destruct post3 as [|c8 post3]; [done|].
  destruct (N.eqb_spec bt c8) as [<-|]; [|done].
  injection Hk as <- <-.
  exists name, lang, code.
  split.
  { f_equal; [|f_equal]; apply take_app_length';
      rewrite length_app; simpl; lia. }
  split; [done|].
  split; [unfold token; rewrite Hcls; by destruct name|].
  split; [unfold token; rewrite Hcls2; by destruct lang|].
  destruct code as [|c body]; [done|]. cbn [closes_first].
  apply negb_true_iff, (contains_by_suffixes body post3).
  intros p q -> Hq.
  specialize (Hmin (c :: p) q eq_refl ltac:(done) Hq).
  change (fence ++ post3) with (bt :: bt :: bt :: post3). unfold fence.
  destruct (q ++ bt :: bt :: bt :: post3) as [|a1 x1]; [done|].
  cbn [startswith]. destruct (bt =? a1); [|done].
  destruct x1 as [|a2 x2]; [done|].
  cbn [andb]. destruct (bt =? a2); [|done].
  destruct x2 as [|a3 x3]; [done|].
  cbn [andb]. destruct (bt =? a3); done.
Qed.

(** A match is never empty: the search always moves on. *)
Lemma match_at_length (s : str) (caps : list str) (rest : str) :
  match_at regex_blocks s = Some (caps, rest) ->
  exists used, s = used ++ rest /\ (11 <= length used)%nat.
Proof.
  intros H. apply match_at_inv in H as (name & lang & code & _ & -> & Hn & Hl & Hc).
  exists (name ++ nl :: fence ++ lang ++ nl :: code ++ fence). split.
  - repeat (rewrite <- app_assoc; simpl). reflexivity.
  - apply andb_true_iff in Hn as [Hn _]. apply andb_true_iff in Hl as [Hl _].
    destruct name, lang, code; try done.
    rewrite !length_app; simpl; rewrite !length_app; simpl; rewrite !length_app; simpl. lia.
Qed.

(** One more non-space character in front extends the captured name. *)
Lemma match_at_extend_left (c : N) (s name code rest : str) :
  non_space c = true ->
  match_at regex_blocks s = Some ([name; code], rest) ->
  match_at regex_blocks (c :: s) = Some ([c :: name; code], rest).
Proof.
  intros Hc H.
  apply match_at_inv in H as (name' & lang & code' & [= <- <-] & -> & Hn & Hl & Hcd).
  apply (match_at_block (c :: name) lang code rest); [|done|done].
  apply andb_true_iff in Hn as [_ Hn]. unfold token. simpl. by rewrite Hc, Hn.
Qed.

(** ** The search *)

Lemma scan_skip (r : regex) (u rest : str) (pos : nat) :
  scan r pos (length u) (u ++ rest) = scan r (pos + length u) 0 rest.
Proof.
  revert pos. induction u as [|c u IH]; intros pos; simpl.
  - by rewrite Nat.add_0_r.
  - rewrite IH. f_equal. lia.
Qed.

(** Positions from which the pattern does not match are passed over. *)
Lemma scan_no_match (r : regex) (u rest : str) (pos : nat) :
  (forall p q, u = p ++ q -> q <> [] -> match_at r (q ++ rest) = None) ->
  scan r pos 0 (u ++ rest) = scan r (pos + length u) 0 rest.
Proof.
  revert pos. induction u as [|c u IH]; intros pos H; simpl.
  - by rewrite Nat.add_0_r.
  - pose proof (H [] (c :: u) eq_refl ltac:(done)) as Hc. simpl in Hc.
    rewrite Hc, IH.
    + f_equal. lia.
    + intros p q -> Hq. by apply (H (c :: p) q).
Qed.

(** A match at the head is reported, and the search resumes after it. *)
Lemma scan_match (r : regex) (used rest : str) (caps : list str) (pos : nat) :
  used <> [] ->
  match_at r (used ++ rest) = Some (caps, rest) ->
  scan r pos 0 (used ++ rest)
  = MkMatch pos (pos + length used) caps :: scan r (pos + length used) 0 rest.
Proof.
  intros Hne H. destruct used as [|c used]; [done|].
  change ((c :: used) ++ rest) with (c :: (used ++ rest)) in *.
  cbn [scan]. rewrite H. cbv zeta.
  replace (length (c :: used ++ rest) - length rest)%nat with (S (length used))
    by (simpl; rewrite length_app; lia).
  simpl. rewrite Nat.sub_0_r, scan_skip. do 2 f_equal. lia.
Qed.

(** ** Responses made of well-formed blocks *)

Lemma prose_suffix (p q : str) : prose (p ++ q) = true -> q <> [] -> prose q = true.
Proof.
  unfold prose. intros H Hq. apply andb_true_iff in H as [H1 H2].
  apply negb_true_iff in H1. apply contains_false_suffix in H1.
  rewrite H1. simpl. rewrite last_app in H2.
  destruct (last q) eqn:E; [done|]. by apply last_None in E.
Qed.

(** A name line that ends inside prose takes the newline with it. *)
Lemma name_line_in_prose (name q X R : str) :
  forallb non_space name = true -> q <> [] ->
  (forall c, last q = Some c -> is_space c = true) ->
  q ++ X = name ++ nl :: R ->
  exists q', q = name ++ nl :: q' /\ q' ++ X = R.
Proof.
  revert q. induction name as [|c name IH]; intros q Hn Hq Hlast E.
  - destruct q as [|d q]; [done|]. simpl in E. injection E as -> E.
    by exists q.
  - simpl in Hn. apply andb_true_iff in Hn as [Hc Hn].
    destruct q as [|d q]; [done|]. simpl in E. injection E as -> E.
    destruct q as [|d' q].
    + specialize (Hlast c eq_refl). unfold non_space in Hc. by rewrite Hlast in Hc.
    + destruct (IH (d' :: q) Hn ltac:(done)) as (q' & -> & E').
      * intros x Hx. apply Hlast. by rewrite last_cons_cons.
      * done.
      * by exists q'.
Qed.

Lemma no_match_in_prose (q X : str) :
  prose q = true -> q <> [] -> startswith X fence = false ->
  match_at regex_blocks (q ++ X) = None.
Proof.
  intros Hp Hq HX.
  destruct (match_at regex_blocks (q ++ X)) as [[caps rest]|] eqn:E; [|done].
  exfalso.
  apply match_at_inv in E as (name & lang & code & _ & E & Hn & _ & _).
  apply andb_true_iff in Hn as [_ Hn].
  apply andb_true_iff in Hp as [Hf Hlast]. apply negb_true_iff in Hf.
  assert (forall c, last q = Some c -> is_space c = true) as Hl.
  { intros c Hc. by rewrite Hc in Hlast. }
  destruct (name_line_in_prose _ _ _ _ Hn Hq Hl E) as (q' & -> & E').
  rewrite last_app in Hl. change (nl :: q') with ([nl] ++ q') in Hf, Hl.
  rewrite last_app in Hl.
  apply contains_false_suffix in Hf. apply contains_false_suffix in Hf.
  assert (is_space bt = true -> False) as Hbt by done.
  destruct q' as [|a1 q'].
  { simpl in E'. subst X. cbn [startswith fence] in HX.
    by rewrite !N.eqb_refl in HX. }
  injection E' as -> E'. destruct q' as [|a2 q'].
  { apply Hbt, Hl. reflexivity. }
  injection E' as -> E'. destruct q' as [|a3 q'].
  { apply Hbt, Hl. reflexivity. }
  injection E' as -> E'.
  apply contains_false_cons in Hf as [Hf _].
  cbn [startswith fence] in Hf. by rewrite !N.eqb_refl in Hf.
Qed.

Lemma block_not_fence (b : block) (rest : str) :
  well_formed_block b = true ->
  startswith (block_text b ++ rest) fence = false.
Proof.
  unfold well_formed_block, block_text, token. intros H.
  repeat (apply andb_true_iff in H as [H ?]).
  destruct (b_name b) as [|c1 [|c2 [|c3 name]]]; try done; simpl in *.
  - by rewrite andb_false_r.
  - by rewrite !andb_false_r.
  - by apply negb_true_iff.
Qed.

Lemma response_cons (intro sep : str) (b : block) (bs : list (block * str)) :
  response intro ((b, sep) :: bs) = intro ++ block_text b ++ response sep bs.
Proof. unfold response. simpl. by rewrite <- !app_assoc. Qed.

Lemma block_text_app (b : block) (rest : str) :
  block_text b ++ rest
  = b_name b ++ nl :: fence ++ b_lang b ++ nl :: b_code b ++ fence ++ rest.
Proof. unfold block_text. repeat (rewrite <- app_assoc; simpl). reflexivity. Qed.

Lemma block_text_nonempty (b : block) : block_text b <> [].
Proof. unfold block_text. by destruct (b_name b). Qed.

Lemma match_at_block_text (b : block) (rest : str) :
  well_formed_block b = true ->
  match_at regex_blocks (block_text b ++ rest) = Some ([b_name b; b_code b], rest).
Proof.
  intros H. unfold well_formed_block in H.
  repeat (apply andb_true_iff in H as [H ?]).
  rewrite block_text_app.
  apply match_at_block; [unfold token; by rewrite H, H3|done|done].
Qed.

(** The search over a well-formed response finds the blocks, one match
    each, in order. *)
Lemma scan_response (bs : list (block * str)) (intro : str) (pos : nat) :
  well_formed intro bs = true ->
  map m_groups (scan regex_blocks pos 0 (response intro bs))
  = map (fun bp => [b_name (fst bp); b_code (fst bp)]) bs.
Proof.
  revert intro pos. induction bs as [|[b sep] bs IH]; intros intro pos H;
    apply andb_true_iff in H as [Hintro Hbs].
  - unfold response. simpl. rewrite scan_no_match; [done|].
    intros p q -> Hq. apply no_match_in_prose; [|done|done].
    by apply (prose_suffix p).
  - simpl in Hbs. apply andb_true_iff in Hbs as [Hb Hbs].
    apply andb_true_iff in Hb as [Hb Hsep].
    rewrite response_cons, scan_no_match.
    + rewrite (scan_match _ (block_text b) _ [b_name b; b_code b]).
      * simpl. f_equal. apply IH. unfold well_formed. by rewrite Hsep, Hbs.
      * apply block_text_nonempty.
      * by apply match_at_block_text.
    + intros p q -> Hq. apply no_match_in_prose; [|done|].
      * by apply (prose_suffix p).
      * by apply block_not_fence.
Qed.

Lemma re_sub_class_clean (cls : N -> bool) (s : str) (c : N) :
  c ∈ re_sub_class cls s -> cls c = false.
Proof. unfold re_sub_class. rewrite list_elem_of_filter. by intros [? _]. Qed.

(** The class of the pattern of line 155 holds the six characters of the
    specification and no other. *)
Lemma forbidden_six (c : N) : forbidden c = true <-> c ∈ six_characters.
Proof.
  unfold forbidden, six_characters.
  rewrite !orb_true_iff, !N.eqb_eq, !elem_of_cons, elem_of_nil. tauto.
Qed.

Lemma re_sub_class_six (s : str) :
  re_sub_class forbidden s = without six_characters s.
Proof.
  unfold re_sub_class, without. apply list_filter_iff. intros c.
  rewrite <- forbidden_six. by destruct (forbidden c).
Qed.

(** C1. A response made of N well-formed blocks (a file name token on the
    line before an opening fence that carries a language tag, a code with a
    first character whose first following fence closes the block, prose
    without fence around the blocks) yields exactly N file records, in the
    order of the blocks; each record has the code of its block, and its file
    name is the block's name token with every < > | ? * and double quote
    removed, and nothing else removed. *)
Theorem parse_well_formed_response (intro : str) (bs : list (block * str)) :
  well_formed intro bs = true ->
  file_records (response intro bs)
  = map (fun bp => (without six_characters (b_name (fst bp)), b_code (fst bp))) bs
  /\ length (file_records (response intro bs)) = length bs
  /\ Forall (fun rec => forall c, c ∈ fst rec -> c ∉ six_characters)
            (file_records (response intro bs)).
Proof.
  intros H.
  assert (file_records (response intro bs)
          = map (fun bp => (without six_characters (b_name (fst bp)), b_code (fst bp))) bs)
    as E.
  { unfold file_records, finditer, file_name_of, code_of, group.
    pose proof (scan_response bs intro 0 H) as Hs.
    revert Hs. generalize (scan regex_blocks 0 0 (response intro bs)).
    clear H. induction bs as [|bp bs' IH']; intros [|m ms] Hs; try done.
    simpl in Hs. injection Hs as Hm Hms.
    simpl. rewrite Hm. simpl. rewrite re_sub_class_six. f_equal. by apply IH'. }
  split; [done|]. split.
  - by rewrite E, length_map.
  - rewrite E. apply Forall_forall. intros rec Hrec c Hc.
    apply list_elem_of_fmap in Hrec as (bp & -> & _).
    cbn [fst] in Hc. unfold without in Hc.
    apply list_elem_of_filter in Hc. tauto.
Qed.

Lemma parse_well_formed_response_witness :
  well_formed (text ["Intro text"]) starred_blocks = true
  /\ file_records (response (text ["Intro text"]) starred_blocks)
     = [(lit "main.py", text ["print(1)"])].
Proof.
  split; [reflexivity|].
  exact (proj1 (parse_well_formed_response (text ["Intro text"]) starred_blocks
                                           eq_refl)).
Defined.

(** The count of the records is not the count of the blocks when a block
    has no code: [.+?] takes one character at least, so the block is not
    closed by its own fence, and the match runs on into the next block. *)
Lemma codeless_block_is_no_record : ~ parse_as_worded.
Proof.
  intros H. specialize (H [] codeless_blocks eq_refl).
  apply (f_equal length) in H. vm_compute in H. discriminate H.
Qed.

(** The response of the specification's example: the file holds the code,
    and the text before the first fence holds the file name line as well. *)
Example sample_response_records :
  file_records sample_response = [(lit "main.py", text ["print(1)"])]
  /\ before_first_fence sample_response = text ["Intro text"; "main.py"].
Proof. split; vm_compute; reflexivity. Qed.

(** A block without code is not closed by its own fence: [.+?] takes one
    character at least, and the match runs on to the next fence. *)
Example empty_code_runs_on :
  file_records (text ["a.py"; "```py"; "```"; "b.py"; "```py"; "x"; "```"])
  = [(lit "a.py", text ["```"; "b.py"])].
Proof. vm_compute. reflexivity. Qed.

(** ** write_codes_to_file *)

Ltac case_fail :=
  match goal with
  | |- context [fail ?e ?o] => destruct (fail e o) eqn:?
  | |- context [make_written_file_resource ?e ?n] =>
    destruct (make_written_file_resource e n) eqn:?
  | |- context [eqb_str ?a ?b] => destruct (eqb_str a b) eqn:?
  end.

Ltac run_persist :=
  unfold write_codes_to_file, try_except_local, open_session, save_and_register,
    on_error, try_except, with_open, prim, emit, ret, raise, bind;
  repeat (case_fail; cbn [fst snd app]).

Lemma calls_app (a b : list event) : calls (a ++ b) = calls a ++ calls b.
Proof.
  induction a as [|ev a IH]; [done|].
  destruct ev; simpl; by rewrite IH.
Qed.

Lemma fs_after_app (file_of : str -> str) (fs : files) (a b : list event) :
  fs_after file_of fs (a ++ b) = fs_after file_of (fs_after file_of fs a) b.
Proof. apply foldl_app. Qed.

(** One invocation enters once. *)
Lemma write_codes_to_file_calls (e : env) (content name : str) :
  calls (fst (write_codes_to_file e content name)) = [(name, content)].
Proof. run_persist; reflexivity. Qed.

(** What it returns, when it returns. *)
Lemma write_codes_to_file_returns (e : env) (content name s : str) :
  snd (write_codes_to_file e content name) = Normal s ->
  s = msg_saved \/ exists ex, s = msg_error_saving ++ str_of_exn ex.
Proof.
  run_persist; intros [= <-]; eauto.
Qed.

(** An exception before [session] is assigned leaves through the handler's
    own [session.close()]. *)
Lemma write_codes_to_file_unbound (e : env) (content name : str) :
  fail e ConnectDb <> None \/ fail e MakeSessionFactory <> None
  \/ fail e OpenSession <> None ->
  snd (write_codes_to_file e content name) = Raised (UnboundLocalError (lit "session")).
Proof.
  intros H. unfold write_codes_to_file, try_except_local, open_session, on_error,
    prim, emit, ret, raise, bind.
  destruct (fail e ConnectDb); [done|].
  destruct (fail e MakeSessionFactory); [done|].
  destruct (fail e OpenSession); [done|].
  by destruct H as [H|[H|H]].
Qed.

(** Once the session is open, every exception of the body is turned into
    a result, unless the handler's close raises as well. *)
Lemma write_codes_to_file_contained (e : env) (content name : str) :
  fail e ConnectDb = None -> fail e MakeSessionFactory = None ->
  fail e OpenSession = None -> fail e SessionCloseOnError = None ->
  exists s, snd (write_codes_to_file e content name) = Normal s.
Proof.
  intros H1 H2 H3 H4.
  unfold write_codes_to_file, try_except_local, open_session, on_error,
    prim, emit, ret, raise, bind.
  rewrite H1, H2, H3. cbn [fst snd app].
  unfold save_and_register, try_except, with_open, prim, emit, ret, raise, bind.
  rewrite ?H4.
  repeat (case_fail; cbn [fst snd app]; rewrite ?H4); eauto.
Qed.

(** A session that was opened is closed, or at least its close attempted,
    on every way out. *)
Lemma session_closed_when_opened (e : env) (content name : str) :
  completed is_open_session (fst (write_codes_to_file e content name)) = true ->
  attempted is_session_close (fst (write_codes_to_file e content name)) = true.
Proof. run_persist; simpl; done. Qed.

(** Every file opened for writing is at the resolved path. *)
Lemma write_codes_to_file_opens (e : env) (content name : str) :
  opened_for_write (fst (write_codes_to_file e content name)) = []
  \/ opened_for_write (fst (write_codes_to_file e content name))
     = [final_path (config_root e) (cwd e) name].
Proof. run_persist; simpl; auto. Qed.

(** The upload is reached at most once, after the flush, and with the path
    of the entry that registration returned. *)
Lemma write_codes_to_file_uploads (e : env) (content name : str) :
  uploads (fst (write_codes_to_file e content name)) = []
  \/ exists r, make_written_file_resource e name = Some r
               /\ storage_type r = lit "S3"
               /\ completed is_flush (fst (write_codes_to_file e content name)) = true
               /\ uploads (fst (write_codes_to_file e content name)) = [path r].
Proof.
  run_persist; simpl;
    first [ by left
          | right; eexists; split; [reflexivity|];
            split; [by eapply bool_decide_eq_true_1|]; split; reflexivity ].

Qed.

Lemma write_codes_to_file_uploaded (e : env) (content name : str) (r : Resource) :
  make_written_file_resource e name = Some r ->
  storage_type r = lit "S3" ->
  completed is_flush (fst (write_codes_to_file e content name)) = true ->
  fail e NewS3Helper = None ->
  uploads (fst (write_codes_to_file e content name)) = [path r].
Proof.
  intros Hr Hs. apply (bool_decide_eq_true_2 _) in Hs.
  unfold write_codes_to_file, try_except_local, open_session,
    save_and_register, on_error, try_except, with_open, prim, emit, ret, raise, bind,
    eqb_str.
  repeat (first [ rewrite Hr | rewrite Hs
                | match goal with
                  | |- context [fail ?e ?o] => destruct (fail e o) eqn:?
                  end ];
          cbn [fst snd app]);
    simpl; intros Hin Hnew; done.
Qed.

(** What one call does to the files: nothing when the open for writing
    did not complete; otherwise the file that the resolved path names is
    replaced, by the content when the write and the close of its [with]
    block completed, and by a torn file when one of them raised. *)
Lemma write_codes_to_file_fs (e : env) (content name : str)
      (file_of : str -> str) (fs : files) :
  fs_after file_of fs (fst (write_codes_to_file e content name))
  = if completed is_open_write (fst (write_codes_to_file e content name))
    then <[file_of (final_path (config_root e) (cwd e) name) :=
             if completed is_file_write (fst (write_codes_to_file e content name))
                && completed is_close_written (fst (write_codes_to_file e content name))
             then Holds content else Torn]> fs
    else fs.
Proof.
  run_persist; simpl; repeat (rewrite lookup_insert_eq; simpl);
    by rewrite ?insert_insert_eq.
Qed.

(** A write is made on a file that was opened. *)
Lemma written_was_opened (e : env) (content name : str) :
  completed is_file_write (fst (write_codes_to_file e content name)) = true ->
  completed is_open_write (fst (write_codes_to_file e content name)) = true.
Proof. run_persist; simpl; done. Qed.

(** ** The loop over the matches *)

Local Arguments lit : simpl never.

Lemma fence_nonempty_match (s : str) :
  contains s fence = false -> match_at regex_blocks s = None.
Proof.
  intros H. destruct (match_at regex_blocks s) as [[caps rest]|] eqn:E; [|done].
  apply match_at_inv in E as (name & lang & code & _ & -> & _).
  change (name ++ nl :: fence ++ lang ++ nl :: code ++ fence ++ rest)
    with (name ++ [nl] ++ fence ++ (lang ++ nl :: code ++ fence ++ rest)) in H.
  rewrite app_assoc in H. by rewrite contains_app in H.
Qed.

(** Without a fence there is no match. *)
Lemma finditer_no_fence (s : str) :
  contains s fence = false -> finditer regex_blocks s = [].
Proof.
  intros H. unfold finditer.
  rewrite <- (app_nil_r s), scan_no_match; [done|].
  intros p q -> Hq. rewrite app_nil_r.
  apply fence_nonempty_match. by apply contains_false_suffix in H.
Qed.

Lemma save_files_app (w : world) (pre post : list re_match) (n n1 : nat)
      (t1 : list event) :
  save_files w n pre = (t1, Normal (n1, None)) ->
  save_files w n (pre ++ post)
  = let '(t2, r) := save_files w n1 post in (t1 ++ t2, r).
Proof.
  revert n t1. induction pre as [|m pre IH]; intros n t1 H.
  - injection H as <- <-. simpl. by destruct (save_files w n post).
  - cbn [save_files app] in *. destruct (truthy (strip (file_name_of m))).
    + unfold bind in *.
      destruct (write_codes_to_file (call_env w n) (code_of m) (file_name_of m))
        as [tk [s|ex]]; [|done].
      destruct (startswith s (lit "Error")); [done|].
      destruct (save_files w (S n) pre) as [t' [[n' [s'|]]|ex]] eqn:E; try done.
      injection H as <- <-.
      rewrite (IH _ _ E).
      destruct (save_files w n' post) as [t2 r]. by rewrite app_assoc.
    + by apply IH.
Qed.

(** An early return of the loop hands back an error result. *)
Lemma save_files_returned (w : world) (ms : list re_match) (n n' : nat)
      (t : list event) (s : str) :
  save_files w n ms = (t, Normal (n', Some s)) ->
  startswith s (lit "Error") = true.
Proof.
  revert n t. induction ms as [|m ms IH]; intros n t H; [done|].
  cbn [save_files] in H. destruct (truthy (strip (file_name_of m))); [|by eapply IH].
  unfold bind in H.
  destruct (write_codes_to_file (call_env w n) (code_of m) (file_name_of m))
    as [tk [s0|ex]]; [|done].
  destruct (startswith s0 (lit "Error")) eqn:E.
  - by injection H as <- <- <-.
  - destruct (save_files w (S n) ms) as [t' [[n'' [s'|]]|ex]] eqn:E'; try done.
    injection H as <- <- <-. by eapply IH.
Qed.

Ltac run_model :=
  unfold ask_model, content_of, emit, ret, raise, bind;
  repeat match goal with
         | |- context [llm ?w] => destruct (llm w) as [?chat_completion|]
         | |- context [?f ?prompt] =>
           match type of (f prompt) with
           | outcome (gmap str value) => destruct (f prompt) as [?result|?ex]
           end
         | |- context [?result !! ?k] => destruct (result !! k) as [[?content|]|]
         end.

Lemma calls_ask_model (w : world) (spec_description : str) :
  calls (fst (ask_model w spec_description)) = [].
Proof. run_model; reflexivity. Qed.

Lemma fs_after_ask_model (w : world) (spec_description : str)
      (file_of : str -> str) (fs : files) :
  fs_after file_of fs (fst (ask_model w spec_description)) = fs.
Proof. run_model; reflexivity. Qed.

(** C3. When [write_codes_to_file] returns a result that starts with
    Error for a record, the records before it having gone through,
    [_execute] returns that very result; the calls made are those for the
    earlier records and this one, so no later record and no README is
    passed to [write_codes_to_file]; the trace ends with the events of this
    call, so nothing written before is undone. *)
Theorem execute_stops_at_first_error
        (w : world) (spec_description content : str)
        (pre post : list re_match) (m : re_match)
        (t0 t1 tk : list event) (n1 : nat) (s : str) :
  ask_model w spec_description = (t0, Normal content) ->
  finditer regex_blocks content = pre ++ m :: post ->
  save_files w 0 pre = (t1, Normal (n1, None)) ->
  truthy (strip (file_name_of m)) = true ->
  write_codes_to_file (call_env w n1) (code_of m) (file_name_of m) = (tk, Normal s) ->
  startswith s (lit "Error") = true ->
  _execute w spec_description = (t0 ++ t1 ++ tk, Normal s)
  /\ calls (t0 ++ t1 ++ tk) = calls t1 ++ [(file_name_of m, code_of m)]
  /\ (forall file_of fs,
        fs_after file_of fs (t0 ++ t1 ++ tk)
        = fs_after file_of (fs_after file_of fs t1) tk).
Proof.
  intros Hask Hfind Hpre Hname Hcall Herr.
  split; [|split].
  - unfold _execute, try_except, bind. rewrite Hask, Hfind.
    rewrite (save_files_app _ _ _ _ _ _ Hpre).
    cbn [save_files]. rewrite Hname. unfold bind. rewrite Hcall, Herr.
    simpl. by rewrite !app_nil_r.
  - rewrite !calls_app.
    pose proof (calls_ask_model w spec_description) as H0. rewrite Hask in H0.
    pose proof (write_codes_to_file_calls (call_env w n1) (code_of m) (file_name_of m)) as Hk.
    rewrite Hcall in Hk. simpl in H0, Hk. by rewrite H0, Hk.
  - intros file_of fs. rewrite !fs_after_app.
    pose proof (fs_after_ask_model w spec_description file_of fs) as H0.
    rewrite Hask in H0. simpl in H0. by rewrite H0.
Qed.

Lemma execute_stops_at_first_error_witness :
  snd (_execute world_no_dir [])
  = Normal (msg_error_saving ++ lit "No such file or directory")
  /\ calls (fst (_execute world_no_dir [])) = [(lit "main.py", text ["print(1)"])].
Proof.
  pose proof (execute_stops_at_first_error
                world_no_dir [] sample_response
                [] [] (MkMatch 11 41 [lit "main.py"; text ["print(1)"]])
                (fst (ask_model world_no_dir [])) []
                (fst (write_codes_to_file env_no_dir (text ["print(1)"]) (lit "main.py")))
                0 (msg_error_saving ++ lit "No such file or directory")
                ltac:(vm_compute; reflexivity) ltac:(vm_compute; reflexivity)
                ltac:(reflexivity) ltac:(vm_compute; reflexivity)
                ltac:(vm_compute; reflexivity) ltac:(vm_compute; reflexivity))
    as (H1 & H2 & _).
  split.
  - rewrite H1. reflexivity.
  - rewrite H1. exact H2.
Defined.

(** What follows the loop when no record returned early: the README call
    on the text before the first fence, then at most the log line of the
    handler. *)
Lemma execute_readme (w : world) (spec_description content : str)
      (t0 t1 : list event) (n : nat) :
  ask_model w spec_description = (t0, Normal content) ->
  save_files w 0 (finditer regex_blocks content) = (t1, Normal (n, None)) ->
  exists tail,
    fst (_execute w spec_description)
    = t0 ++ t1
      ++ fst (write_codes_to_file (call_env w n) (before_first_fence content) README_md)
      ++ tail
    /\ (tail = [] \/ exists msg, tail = [LogError msg]).
Proof.
  intros Hask Hloop.
  unfold _execute, try_except, bind. rewrite Hask, Hloop.
  unfold save_readme. rewrite split_length_pos, split_head. unfold bind.
  destruct (write_codes_to_file (call_env w n) (before_first_fence content) README_md)
    as [tr [s|ex]]; cbn [fst snd].
  - exists []. split; [|by left].
    destruct (startswith s (lit "Error")); simpl; by rewrite !app_nil_r.
  - eexists. split; [|right; eauto]. simpl. by rewrite <- !app_assoc.
Qed.

(** C4. A response without any fence gives no file record; the only
    call of [write_codes_to_file] of the run is the one for README.md, and
    its content is the whole response. *)
Theorem no_fence_response_is_readme
        (w : world) (spec_description content : str) (t0 : list event) :
  ask_model w spec_description = (t0, Normal content) ->
  contains content fence = false ->
  file_records content = []
  /\ nth 0 (split content fence) [] = content
  /\ calls (fst (_execute w spec_description)) = [(README_md, content)].
Proof.
  intros Hask Hno.
  pose proof (finditer_no_fence content Hno) as Hfind.
  split; [by unfold file_records; rewrite Hfind|].
  split; [by rewrite split_head, before_first_fence_none|].
  assert (save_files w 0 (finditer regex_blocks content) = ([], Normal (0%nat, None)))
    as Hloop by (by rewrite Hfind).
  destruct (execute_readme w spec_description content t0 [] 0 Hask Hloop)
    as (tail & -> & Htail).
  rewrite before_first_fence_none by done.
  pose proof (calls_ask_model w spec_description) as H0. rewrite Hask in H0.
  simpl in H0. rewrite !calls_app, H0, write_codes_to_file_calls.
  by destruct Htail as [->|[msg ->]].
Qed.

Lemma no_fence_response_is_readme_witness :
  contains (lit "I cannot write this code.") fence = false
  /\ calls (fst (_execute (world_of (fun _ => env_ok None)
                                    (lit "I cannot write this code.")) []))
     = [(README_md, lit "I cannot write this code.")].
Proof.
  split; [reflexivity|].
  exact (proj2 (proj2 (no_fence_response_is_readme
                         (world_of (fun _ => env_ok None) (lit "I cannot write this code."))
                         [] (lit "I cannot write this code.")
                         (fst (ask_model (world_of (fun _ => env_ok None)
                                                   (lit "I cannot write this code.")) []))
                         ltac:(vm_compute; reflexivity) ltac:(reflexivity)))).
Defined.

(** C6. A match whose file name is empty once the forbidden characters
    are removed is passed over: the loop behaves as if the match were not
    there, so [write_codes_to_file] is not called for it, nothing is
    written or raised for it, and the records after it are processed. *)
Theorem empty_name_is_skipped
        (w : world) (n : nat) (pre post : list re_match) (m : re_match) :
  re_sub_class forbidden (group m 1) = [] ->
  save_files w n (pre ++ m :: post) = save_files w n (pre ++ post).
Proof.
  intros Hm. revert n. induction pre as [|m' pre IH]; intros n.
  - cbn [app save_files]. unfold file_name_of. by rewrite Hm.
  - cbn [app save_files]. destruct (truthy (strip (file_name_of m'))); [|apply IH].
    unfold bind.
    destruct (write_codes_to_file (call_env w n) (code_of m') (file_name_of m'))
      as [tk [s|ex]]; [|done].
    destruct (startswith s (lit "Error")); [done|]. by rewrite IH.
Qed.

Lemma empty_name_is_skipped_witness :
  re_sub_class forbidden (group (MkMatch 0 13 [lit "?*"; lit "x"]) 1) = []
  /\ finditer regex_blocks unnamed_response = [MkMatch 0 13 [lit "?*"; lit "x"]]
  /\ save_files world_fine 0 (finditer regex_blocks unnamed_response)
     = ([], Normal (0%nat, None)).
Proof.
  split; [reflexivity|]. split; [vm_compute; reflexivity|].
  exact (empty_name_is_skipped world_fine 0 [] [] (MkMatch 0 13 [lit "?*"; lit "x"])
                               eq_refl).
Defined.

(** C7. [_execute] never raises: it returns a string, which is the
    success message or starts with Error; the message of
    [write_codes_to_file] for a saved file is never what it returns. *)
Theorem execute_returns_success_or_error (w : world) (spec_description : str) :
  exists s,
    snd (_execute w spec_description) = Normal s
    /\ (s = msg_success \/ startswith s (lit "Error") = true)
    /\ s <> msg_saved.
Proof.
  assert (forall s, s = msg_success \/ startswith s (lit "Error") = true ->
                    s <> msg_saved) as Hne.
  { intros s [->|H] E; [done|]. by rewrite E in H. }
  assert (exists s, snd (_execute w spec_description) = Normal s
                    /\ (s = msg_success \/ startswith s (lit "Error") = true))
    as (s & Hs & Hc); [|by eauto].
  unfold _execute, try_except, bind, emit, ret.
  destruct (ask_model w spec_description) as [t0 [content|ex]]; [|by eauto].
  destruct (save_files w 0 (finditer regex_blocks content))
    as [t1 [[n [s|]]|ex]] eqn:Hloop; [| |by eauto].
  - apply save_files_returned in Hloop. simpl. by eauto.
  - unfold save_readme. rewrite split_length_pos. unfold bind, ret.
    destruct (write_codes_to_file (call_env w n) (nth 0 (split content fence) []) README_md)
      as [tr [s|ex]]; [|by eauto].
    destruct (startswith s (lit "Error")) eqn:E; simpl; by eauto.
Qed.

(** C9. When the loop over the records ends without an early return, the
    README step runs: the guard on the split holds for every response, the
    README is the text before the first fence (so up to and including a
    file name line in front of that fence, and empty for an empty response),
    [write_codes_to_file] is called for README.md once more after all the
    calls for the records, and when the write of that call and the close of
    its [with] block complete, the file that the README.md path names holds
    the README, whatever an earlier record wrote there, under that path or
    another path of the same file. *)
Theorem readme_is_saved_last
        (w : world) (spec_description content : str)
        (t0 t1 : list event) (n : nat) :
  ask_model w spec_description = (t0, Normal content) ->
  save_files w 0 (finditer regex_blocks content) = (t1, Normal (n, None)) ->
  (0 <? length (split content fence))%nat = true
  /\ nth 0 (split content fence) [] = before_first_fence content
  /\ (forall p rest, content = p ++ fence ++ rest ->
                     contains (p ++ [bt; bt]) fence = false ->
                     before_first_fence content = p)
  /\ calls (fst (_execute w spec_description))
     = calls t1 ++ [(README_md, before_first_fence content)]
  /\ (completed is_file_write
        (fst (write_codes_to_file (call_env w n) (before_first_fence content) README_md))
      = true ->
      completed is_close_written
        (fst (write_codes_to_file (call_env w n) (before_first_fence content) README_md))
      = true ->
      forall file_of fs,
        fs_after file_of fs (fst (_execute w spec_description))
        !! file_of (final_path (config_root (call_env w n)) (cwd (call_env w n))
                               README_md)
        = Some (Holds (before_first_fence content))).
Proof.
  intros Hask Hloop.
  split; [apply split_length_pos|]. split; [apply split_head|].
  split; [intros p rest -> Hp; by apply before_first_fence_app|].
  destruct (execute_readme w spec_description content t0 t1 n Hask Hloop)
    as (tail & -> & Htail).
  split.
  - pose proof (calls_ask_model w spec_description) as H0. rewrite Hask in H0.
    simpl in H0. rewrite !calls_app, H0, write_codes_to_file_calls.
    by destruct Htail as [->|[msg ->]].
  - intros Hw Hc file_of fs. rewrite !fs_after_app.
    assert (forall fs', fs_after file_of fs' tail = fs') as ->
        by (by destruct Htail as [->|[msg ->]]).
    rewrite write_codes_to_file_fs, (written_was_opened _ _ _ Hw), Hw, Hc.
    apply lookup_insert_eq.
Qed.

Lemma readme_is_saved_last_witness :
  calls (fst (_execute world_readme []))
  = [(README_md, text ["hello"]); (README_md, text ["Docs"; "README.md"])]
  /\ fs_after id ∅ (fst (_execute world_readme [])) !! lit "/work/out/README.md"
     = Some (Holds (text ["Docs"; "README.md"])).
Proof.
  pose proof (readme_is_saved_last
                world_readme [] readme_response
                (fst (ask_model world_readme []))
                (fst (save_files world_readme 0 (finditer regex_blocks readme_response)))
                1
                ltac:(vm_compute; reflexivity) ltac:(vm_compute; reflexivity))
    as (_ & _ & _ & H4 & H5).
  split.
  - exact H4.
  - exact (H5 ltac:(vm_compute; reflexivity) ltac:(vm_compute; reflexivity) id ∅).
Defined.

(** ** Path resolution *)

Lemma endswith_snoc (r : str) (c : N) : endswith (r ++ [c]) [c] = true.
Proof. unfold endswith. rewrite rev_app_distr. simpl. by rewrite N.eqb_refl. Qed.

Lemma closed_root_ends (r : str) : endswith (closed_root r) [slash] = true.
Proof.
  unfold closed_root. destruct (endswith r [slash]) eqn:E; [done|apply endswith_snoc].
Qed.

(** C5, as the code has it. With a configured root the destination is
    the closed root followed by the logical name, where the root is taken as
    it is when it starts with a separator and prefixed with the working
    directory and a separator otherwise, and where one separator is appended
    exactly when the root does not end with one already: the closed root
    always ends with a separator, with exactly one when one was appended,
    and separators the configured root already ends with are kept. Without
    a configured root the destination is the working directory, a separator
    and the logical name. The path [write_codes_to_file] opens is this
    function of the logical name, the configured root and the working
    directory, whatever else the environment does. *)
Theorem final_path_resolution (root cwd0 name : str) :
  final_path (Some root) cwd0 name = closed_root (absolute_root root cwd0) ++ name
  /\ final_path None cwd0 name = cwd0 ++ [slash] ++ name
  /\ (startswith root [slash] = true -> absolute_root root cwd0 = root)
  /\ (startswith root [slash] = false -> absolute_root root cwd0 = cwd0 ++ [slash] ++ root)
  /\ (startswith cwd0 [slash] = true ->
      startswith (absolute_root root cwd0) [slash] = true)
  /\ endswith (closed_root (absolute_root root cwd0)) [slash] = true
  /\ (forall r, endswith r [slash] = true -> closed_root r = r)
  /\ (forall r, endswith r [slash] = false ->
                closed_root r = r ++ [slash]
                /\ single_trailing_sep (closed_root r) = true)
  /\ (forall e content,
        config_root e = Some root -> cwd e = cwd0 ->
        opened_for_write (fst (write_codes_to_file e content name)) = []
        \/ opened_for_write (fst (write_codes_to_file e content name))
           = [final_path (Some root) cwd0 name]).
Proof.
  repeat split.
  - unfold absolute_root. by intros ->.
  - unfold absolute_root. by intros ->.
  - unfold absolute_root. intros H. destruct (startswith root [slash]) eqn:E; [done|].
    by apply startswith_mono.
  - apply closed_root_ends.
  - unfold closed_root. by intros r ->.
  - unfold closed_root. by rewrite H.
  - unfold closed_root, single_trailing_sep. rewrite H, endswith_snoc.
    unfold endswith in *. rewrite rev_app_distr. simpl in *.
    by rewrite H.
  - intros e content Hroot Hcwd.
    rewrite <- Hroot, <- Hcwd. apply write_codes_to_file_opens.
Qed.

Lemma final_path_resolution_witness :
  final_path (Some (lit "out")) (lit "/work") (lit "main.py") = lit "/work/out/main.py"
  /\ closed_root (lit "/work/out") = lit "/work/out/"
  /\ single_trailing_sep (closed_root (lit "/work/out")) = true.
Proof.
  pose proof (final_path_resolution (lit "out") (lit "/work") (lit "main.py"))
    as (H1 & _ & _ & H4 & _ & _ & _ & H8 & _).
  split; [|exact (H8 (lit "/work/out") eq_refl)].
  rewrite H1, (H4 eq_refl). reflexivity.
Defined.

(** C5 as stated fails: a configured root that ends with two separators
    keeps both. *)
Lemma final_path_keeps_trailing_separators :
  final_path (Some (lit "/out//")) (lit "/work") (lit "main.py") = lit "/out//main.py"
  /\ closed_root (absolute_root (lit "/out//") (lit "/work")) = lit "/out//"
  /\ single_trailing_sep (closed_root (absolute_root (lit "/out//") (lit "/work"))) = false.
Proof. repeat split. Qed.

(** ** The remote upload *)

(** C8, as the code has it. When registration returns an S3 entry, the
    flush that follows the commit completes and the S3 helper is built,
    [upload_file] is called exactly once, with the path of that entry; when
    registration returns no entry, or an entry of another storage type, it
    is not called; and in every run it is called at most once, only after
    the flush, only with the path of the registered entry. *)
Theorem upload_once_after_flush (e : env) (content name : str) :
  (forall r, make_written_file_resource e name = Some r ->
             storage_type r = lit "S3" ->
             completed is_flush (fst (write_codes_to_file e content name)) = true ->
             fail e NewS3Helper = None ->
             uploads (fst (write_codes_to_file e content name)) = [path r])
  /\ (make_written_file_resource e name = None ->
      uploads (fst (write_codes_to_file e content name)) = [])
  /\ (forall r, make_written_file_resource e name = Some r ->
                storage_type r <> lit "S3" ->
                uploads (fst (write_codes_to_file e content name)) = [])
  /\ (uploads (fst (write_codes_to_file e content name)) = []
      \/ exists r, make_written_file_resource e name = Some r
                   /\ storage_type r = lit "S3"
                   /\ completed is_flush (fst (write_codes_to_file e content name)) = true
                   /\ uploads (fst (write_codes_to_file e content name)) = [path r]).
Proof.
  pose proof (write_codes_to_file_uploads e content name) as H.
  split; [|split; [|split]].
  - intros r. apply write_codes_to_file_uploaded.
  - intros Hnone. destruct H as [H|(r & Hr & _)]; [done|congruence].
  - intros r Hr Hs. destruct H as [H|(r' & Hr' & Hs' & _)]; [done|congruence].
  - done.
Qed.

Lemma upload_once_after_flush_witness :
  uploads (fst (write_codes_to_file (env_ok (Some s3_entry))
                                    (text ["print(1)"]) (lit "main.py")))
  = [lit "resources/main.py"].
Proof.
  exact (proj1 (upload_once_after_flush (env_ok (Some s3_entry))
                                        (text ["print(1)"]) (lit "main.py"))
               s3_entry eq_refl eq_refl ltac:(vm_compute; reflexivity) eq_refl).
Defined.

(** C8 as stated fails: the file is written, an S3 entry is registered
    and committed, the flush raises, and nothing is uploaded. *)
Lemma commit_without_upload :
  ~ upload_once_when_committed env_flush_fails (text ["print(1)"]) (lit "main.py").
Proof.
  intros H.
  specialize (H s3_entry ltac:(vm_compute; reflexivity) eq_refl eq_refl
                ltac:(vm_compute; reflexivity)).
  vm_compute in H. discriminate H.
Qed.

(** ** The error boundary of write_codes_to_file *)

(** C2. With a catalog that cannot be reached, [connect_db()] raises
    before [session] is assigned; the handler's [session.close()] then
    raises UnboundLocalError, and [write_codes_to_file] lets it through
    instead of returning an error string. *)
Theorem unreachable_catalog_escapes :
  write_codes_to_file env_no_db (text ["print(1)"]) (lit "main.py")
  = ([Enter (lit "main.py") (text ["print(1)"]); Did ConnectDb false],
     Raised (UnboundLocalError (lit "session"))).
Proof. reflexivity. Qed.

(** ** Where a match starts *)

Lemma scan_inv (s : str) :
  forall (u : str) (skip : nat) (m : re_match),
    m ∈ scan regex_blocks (length u) skip s ->
    (length u + skip <= m_start m)%nat
    /\ (exists rest,
          match_at regex_blocks (drop (m_start m) (u ++ s)) = Some (m_groups m, rest))
    /\ (m_start m = (length u + skip)%nat
        \/ (exists c, (u ++ s) !! (m_start m - 1)%nat = Some c /\ is_space c = true)
        \/ (exists m', m' ∈ scan regex_blocks (length u) skip s /\ m_end m' = m_start m)).
Proof.
  induction s as [|c s IH]; intros u skip m Hm.
  - simpl in Hm. by apply elem_of_nil in Hm.
  - assert (S (length u) = length (u ++ [c])) as Hlen
        by (rewrite length_app; simpl; lia).
    assert ((u ++ [c]) ++ s = u ++ c :: s) as Happ by (by rewrite <- app_assoc).
    cbn [scan] in *. destruct skip as [|k].
    + destruct (match_at regex_blocks (c :: s)) as [[caps rest]|] eqn:E.
      * cbv zeta in *. apply elem_of_cons in Hm as [->|Hm].
        { simpl. split; [lia|]. split.
          - exists rest. by rewrite drop_app_length.
          - left. lia. }
        destruct (match_at_length _ _ _ E) as (used & Hused & Hn).
        rewrite Hlen in Hm.
        destruct (IH _ _ _ Hm) as (Hle & [rest' Hmatch] & Hcases).
        rewrite Happ in Hmatch.
        assert (length (c :: s) - length rest = length used)%nat as Hsub
            by (rewrite Hused, length_app; lia).
        rewrite Hsub in *. rewrite <- Hlen in Hle.
        split; [lia|]. split; [by exists rest'|].
        destruct Hcases as [Hs|[(c' & Hc' & Hsp)|(m' & Hm' & He)]].
        -- right; right. eexists. split; [apply list_elem_of_here|]. simpl.
           rewrite Hs, <- Hlen. lia.
        -- right; left. exists c'. by rewrite <- Happ.
        -- right; right. exists m'. split; [|done].
           apply list_elem_of_further. by rewrite Hlen.
      * rewrite Hlen in Hm.
        destruct (IH _ _ _ Hm) as (Hle & [rest' Hmatch] & Hcases).
        rewrite Happ in Hmatch. rewrite <- Hlen in Hle.
        split; [lia|]. split; [by exists rest'|].
        destruct Hcases as [Hs|[(c' & Hc' & Hsp)|(m' & Hm' & He)]].
        -- right; left. exists c. rewrite Hs, <- Hlen.
           replace (S (length u) + 0 - 1)%nat with (length u) by lia.
           split; [by rewrite list_lookup_middle|].
           destruct (is_space c) eqn:Hc; [done|]. exfalso.
           rewrite Hs, <- Hlen, Nat.add_0_r in Hmatch.
           change (c :: s) with ([c] ++ s) in Hmatch.
           rewrite app_assoc, Hlen, drop_app_length in Hmatch.
           destruct (match_at_inv _ _ _ Hmatch) as (name & lang & code & Hg & _).
           rewrite Hg in Hmatch.
           apply (match_at_extend_left c) in Hmatch; [congruence|].
           unfold non_space. by rewrite Hc.
        -- right; left. exists c'. by rewrite <- Happ.
        -- right; right. exists m'. split; [|done]. by rewrite Hlen.
    + rewrite Hlen in Hm.
      destruct (IH _ _ _ Hm) as (Hle & [rest' Hmatch] & Hcases).
      rewrite Happ in Hmatch. rewrite <- Hlen in Hle.
      split; [lia|]. split; [by exists rest'|].
      destruct Hcases as [Hs|[(c' & Hc' & Hsp)|(m' & Hm' & He)]].
      * left. rewrite Hs, <- Hlen. lia.
      * right; left. exists c'. by rewrite <- Happ.
      * right; right. exists m'. split; [|done]. by rewrite Hlen.
Qed.

Lemma leading_run_app (x y : str) :
  forallb non_space x = true ->
  match y with [] => True | c :: _ => is_space c = true end ->
  leading_run (x ++ y) = x.
Proof.
  intros Hx Hy. induction x as [|c x IH]; simpl in *.
  - destruct y as [|d y]; [done|]. simpl. unfold non_space. by rewrite Hy.
  - apply andb_true_iff in Hx as [Hc Hx]. by rewrite Hc, IH.
Qed.

(** A token that starts the text, or follows white space, is the maximal
    run before its end. *)
Lemma run_before_token (s name rest : str) (a : nat) :
  drop a s = name ++ rest -> name <> [] -> forallb non_space name = true ->
  (a = 0%nat \/ exists c, s !! (a - 1)%nat = Some c /\ is_space c = true) ->
  run_before s (a + length name) = name.
Proof.
  intros Hdrop Hne Hname Hleft.
  assert (a < length s)%nat as Ha.
  { destruct (decide (a < length s)%nat) as [|Hge]; [done|].
    rewrite drop_ge in Hdrop by lia. by destruct name. }
  unfold run_before.
  assert (take (a + length name) s = take a s ++ name) as ->.
  { rewrite <- (take_drop a s) at 1. rewrite Hdrop.
    rewrite take_app_add' by (rewrite length_take; lia).
    by rewrite take_app_length. }
  rewrite rev_app_distr, leading_run_app.
  - apply rev_involutive.
  - rewrite forallb_forall in *. intros c Hc. apply Hname. by apply in_rev.
  - destruct Hleft as [->|(c & Hc & Hsp)]; [done|].
    destruct a as [|a']; [done|].
    simpl in Hc. rewrite Nat.sub_0_r in Hc.
    rewrite (take_S_r _ _ c Hc). by rewrite rev_app_distr.
Qed.

(** C10, as the code has it. The name captured for a match is a token
    that stands right before the newline and the opening fence, and the
    file name is that token without the forbidden characters. The token is
    the maximal run of non-space characters before that newline, unless the
    match starts exactly where an earlier match ended: the search resumes
    there, and what lies before belongs to the earlier match. A well-formed
    block after prose gives a record named after the last token before the
    fence line, whatever the prose holds. *)
Theorem captured_name_is_token_run (s : str) (i : nat) (m : re_match) :
  finditer regex_blocks s !! i = Some m ->
  token (group m 1) = true
  /\ startswith (drop (m_start m) s) (group m 1 ++ nl :: fence) = true
  /\ file_name_of m = re_sub_class forbidden (group m 1)
  /\ (group m 1 = run_before s (m_start m + length (group m 1))
      \/ exists m', m' ∈ finditer regex_blocks s /\ m_end m' = m_start m)
  /\ (forall p b, prose p = true -> well_formed_block b = true ->
                  file_records (p ++ block_text b)
                  = [(re_sub_class forbidden (b_name b), b_code b)]).
Proof.
  intros Hi.
  assert (m ∈ scan regex_blocks (length (@nil N)) 0 s) as Hm
      by (apply list_elem_of_lookup; by exists i).
  destruct (scan_inv s [] 0 m Hm) as (_ & [rest Hmatch] & Hcases).
  simpl in Hmatch, Hcases.
  destruct (match_at_inv _ _ _ Hmatch) as (name & lang & code & Hg & Hdrop & Hn & _).
  assert (group m 1 = name) as -> by (unfold group; by rewrite Hg).
  split; [done|]. split.
  { rewrite Hdrop.
    change (name ++ nl :: fence ++ lang ++ nl :: code ++ fence ++ rest)
      with (name ++ (nl :: fence) ++ (lang ++ nl :: code ++ fence ++ rest)).
    rewrite app_assoc. apply startswith_app. }
  split. { unfold file_name_of, group. by rewrite Hg. }
  split.
  { apply andb_true_iff in Hn as [Hne Hn].
    destruct Hcases as [Hs|[Hc|Hm']]; [left|left|by right].
    - symmetry. eapply run_before_token; [done|by destruct name|done|by left].
    - symmetry. eapply run_before_token; [done|by destruct name|done|by right]. }
  intros p b Hp Hb.
  assert (well_formed p [(b, [])] = true) as Hwf
      by (unfold well_formed; simpl; by rewrite Hp, Hb).
  pose proof (scan_response [(b, [])] p 0 Hwf) as Hs.
  unfold response in Hs. simpl in Hs. rewrite !app_nil_r in Hs.
  unfold file_records, finditer.
  destruct (scan regex_blocks 0 0 (p ++ block_text b)) as [|m0 [|m1 ms]];
    simplify_eq/=.
  unfold file_name_of, code_of, group. by rewrite H.
Qed.

Lemma captured_name_is_token_run_witness :
  finditer regex_blocks prose_only_response !! 0%nat
  = Some (MkMatch 12 40 [lit "code:"; text ["print(1)"]])
  /\ file_name_of (MkMatch 12 40 [lit "code:"; text ["print(1)"]]) = lit "code:"
  /\ run_before prose_only_response 17 = lit "code:".
Proof.
  pose proof (captured_name_is_token_run
                prose_only_response 0 (MkMatch 12 40 [lit "code:"; text ["print(1)"]])
                ltac:(vm_compute; reflexivity))
    as (_ & _ & H3 & _ & _).
  split; [vm_compute; reflexivity|].
  split; [rewrite H3|]; vm_compute; reflexivity.
Defined.

(** C10 as stated fails: when a closing fence runs into the next file
    name, the second match is named b, and the run of non-space characters
    before its newline is longer. *)
Lemma glued_name_is_not_maximal : ~ name_is_maximal_run glued_response.
Proof.
  intros H.
  specialize (H 1%nat (MkMatch 11 22 [lit "b"; lit "z"]) ltac:(vm_compute; reflexivity)).
  vm_compute in H. discriminate H.
Qed.

(** * Further properties *)

(** ** The result and the effects of write_codes_to_file *)

Lemma error_message_is_not_saved (x : str) : msg_error_saving ++ x <> msg_saved.
Proof. intros H. vm_compute in H. discriminate H. Qed.

(** X1. [write_codes_to_file] returns the message of a saved file exactly
    when none of the calls it made raised. *)
Theorem saved_iff_all_completed (e : env) (content name : str) :
  snd (write_codes_to_file e content name) = Normal msg_saved
  <-> all_completed (fst (write_codes_to_file e content name)) = true.
Proof.
  run_persist; simpl; split; intros H; try done;
    exfalso; injection H as H; by apply error_message_is_not_saved in H.
Qed.

Lemma saved_iff_all_completed_witness :
  snd (write_codes_to_file (env_ok None) (text ["print(1)"]) (lit "main.py"))
  = Normal msg_saved.
Proof.
  exact (proj2 (saved_iff_all_completed (env_ok None) (text ["print(1)"]) (lit "main.py"))
               ltac:(vm_compute; reflexivity)).
Defined.

(** X2. The session is closed, or its close attempted, exactly in the
    runs that opened it, and its close completes once at most. *)
Theorem session_close_discipline (e : env) (content name : str) :
  attempted is_session_close (fst (write_codes_to_file e content name))
  = completed is_open_session (fst (write_codes_to_file e content name))
  /\ (completions is_session_close (fst (write_codes_to_file e content name)) <= 1)%nat.
Proof. run_persist; simpl; split; (reflexivity || lia). Qed.

(** X3. What one call leaves of the files: nothing changes when the open
    for writing did not complete; once it completed, what the file at the
    resolved path held before is lost, and the file holds the content only
    when both the write and the close of the [with] block completed; when
    one of them raised its content is not determined. No other file is
    touched. *)
Theorem file_after_call (e : env) (content name : str)
        (file_of : str -> str) (fs : files) :
  (completed is_open_write (fst (write_codes_to_file e content name)) = false ->
   fs_after file_of fs (fst (write_codes_to_file e content name)) = fs)
  /\ (completed is_file_write (fst (write_codes_to_file e content name)) = true ->
      completed is_close_written (fst (write_codes_to_file e content name)) = true ->
      fs_after file_of fs (fst (write_codes_to_file e content name))
      = <[file_of (final_path (config_root e) (cwd e) name) := Holds content]> fs)
  /\ (completed is_open_write (fst (write_codes_to_file e content name)) = true ->
      completed is_file_write (fst (write_codes_to_file e content name)) = false
      \/ completed is_close_written (fst (write_codes_to_file e content name)) = false ->
      fs_after file_of fs (fst (write_codes_to_file e content name))
      = <[file_of (final_path (config_root e) (cwd e) name) := Torn]> fs).
Proof.
  rewrite write_codes_to_file_fs. split; [by intros ->|]. split.
  - intros Hw Hc. by rewrite (written_was_opened _ _ _ Hw), Hw, Hc.
  - intros -> [-> | ->]; [done|]. by rewrite andb_false_r.
Qed.

Lemma file_after_call_witness :
  fs_after id {[ lit "/work/main.py" := Holds (lit "old") ]}
           (fst (write_codes_to_file env_close_fails (text ["print(1)"]) (lit "main.py")))
  = {[ lit "/work/main.py" := Torn ]}.
Proof.
  rewrite (proj2 (proj2 (file_after_call env_close_fails (text ["print(1)"])
                                         (lit "main.py") id
                                         {[ lit "/work/main.py" := Holds (lit "old") ]}))
                 ltac:(vm_compute; reflexivity)
                 ltac:(right; vm_compute; reflexivity)).
  apply insert_singleton_eq.
Defined.

(** A write that raises: the old content is gone, the new one is not
    there, and the result is the error message. *)
Example disk_full_leaves_torn_file :
  fs_after id {[ lit "/work/main.py" := Holds (lit "old") ]}
           (fst (write_codes_to_file env_disk_full (text ["print(1)"]) (lit "main.py")))
  = {[ lit "/work/main.py" := Torn ]}
  /\ snd (write_codes_to_file env_disk_full (text ["print(1)"]) (lit "main.py"))
     = Normal (lit "Error saving codes to file: No space left on device").
Proof. split; vm_compute; reflexivity. Qed.

(** X4. The catalog is written only for a file that was written, closed
    and registered: [session.add] is attempted only after these completed
    and registration returned an entry; when registration returns none,
    neither add nor commit nor upload is attempted, and the file is
    reported as saved if the other calls complete. *)
Theorem catalog_after_file (e : env) (content name : str) :
  (attempted is_session_add (fst (write_codes_to_file e content name)) = true ->
   completed is_file_write (fst (write_codes_to_file e content name)) = true
   /\ completed is_close_written (fst (write_codes_to_file e content name)) = true
   /\ completed is_make_resource (fst (write_codes_to_file e content name)) = true
   /\ is_Some (make_written_file_resource e name))
  /\ (make_written_file_resource e name = None ->
      attempted is_session_add (fst (write_codes_to_file e content name)) = false
      /\ attempted is_commit (fst (write_codes_to_file e content name)) = false
      /\ uploads (fst (write_codes_to_file e content name)) = []).
Proof.
  run_persist; simpl; repeat split; intros; try done; by eexists.
Qed.

Lemma catalog_after_file_witness :
  completed is_file_write
    (fst (write_codes_to_file env_commit_fails (text ["print(1)"]) (lit "main.py"))) = true.
Proof.
  exact (proj1 (proj1 (catalog_after_file env_commit_fails (text ["print(1)"]) (lit "main.py"))
                      ltac:(vm_compute; reflexivity))).
Defined.



(** X6. When the catalog cannot be reached or the session cannot be
    opened, [write_codes_to_file] raises UnboundLocalError for [session],
    and has written no file, closed no session and uploaded nothing. *)
Theorem no_session_no_effect (e : env) (content name : str)
        (file_of : str -> str) (fs : files) :
  fail e ConnectDb <> None \/ fail e MakeSessionFactory <> None
  \/ fail e OpenSession <> None ->
  snd (write_codes_to_file e content name) = Raised (UnboundLocalError (lit "session"))
  /\ fs_after file_of fs (fst (write_codes_to_file e content name)) = fs
  /\ attempted is_session_close (fst (write_codes_to_file e content name)) = false
  /\ uploads (fst (write_codes_to_file e content name)) = [].
Proof.
  intros H. unfold write_codes_to_file, try_except_local, open_session, on_error,
    prim, emit, ret, raise, bind.
  destruct (fail e ConnectDb); [done|].
  destruct (fail e MakeSessionFactory); [done|].
  destruct (fail e OpenSession); [done|].
  by destruct H as [H|[H|H]].
Qed.

Lemma no_session_no_effect_witness :
  snd (write_codes_to_file env_no_db (text ["print(1)"]) (lit "main.py"))
  = Raised (UnboundLocalError (lit "session")).
Proof.
  exact (proj1 (no_session_no_effect env_no_db (text ["print(1)"]) (lit "main.py") id ∅
                                     ltac:(left; discriminate))).
Defined.

(** ** Whole runs of _execute *)

Lemma ask_model_prompt (w : world) (spec_description : str) :
  ask_model w spec_description
  = match llm w with
    | None => raise (AttributeError msg_no_chat_completion)
    | Some chat_completion =>
      match chat_completion (prompt_of w spec_description) with
      | Normal result =>
        emit (Did (ChatCompletion (prompt_of w spec_description)) true) >>
        content_of result
      | Raised ex =>
        ([Did (ChatCompletion (prompt_of w spec_description)) false], Raised ex)
      end
    end.
Proof. unfold ask_model, prompt_of. cbv zeta. reflexivity. Qed.

(** The model gives a text exactly when it is set, its call returns, and
    the result holds text under the key. *)
Lemma ask_model_text (w : world) (spec_description content : str) :
  snd (ask_model w spec_description) = Normal content
  <-> model_text w spec_description = Some content.
Proof.
  rewrite ask_model_prompt. unfold model_text, content_of, emit, ret, raise, bind.
  destruct (llm w) as [chat_completion|]; [|done].
  destruct (chat_completion (prompt_of w spec_description)) as [result|ex]; [|done].
  destruct (result !! lit "content") as [[c|]|]; cbn [snd]; split; congruence.
Qed.

Lemma save_files_calls (w : world) (ms : list re_match) (n : nat) :
  calls (fst (save_files w n ms))
  `prefix_of` filter (fun rec => truthy (strip (fst rec)) = true)
                     (map (fun m => (file_name_of m, code_of m)) ms)
  /\ (forall n', snd (save_files w n ms) = Normal (n', None) ->
                 calls (fst (save_files w n ms))
                 = filter (fun rec => truthy (strip (fst rec)) = true)
                          (map (fun m => (file_name_of m, code_of m)) ms)).
Proof.
  revert n. induction ms as [|m ms IH]; intros n; [done|].
  cbn [save_files map].
  destruct (truthy (strip (file_name_of m))) eqn:Hname.
  - rewrite filter_cons_True by done.
    pose proof (write_codes_to_file_calls (call_env w n) (code_of m) (file_name_of m)) as Hk.
    unfold bind.
    destruct (write_codes_to_file (call_env w n) (code_of m) (file_name_of m))
      as [tk [s|ex]]; cbn [fst snd] in *.
    + destruct (startswith s (lit "Error")).
      * cbn [ret fst snd]. rewrite app_nil_r, Hk.
        split; [apply prefix_cons, prefix_nil|done].
      * destruct (IH (S n)) as [IH1 IH2].
        destruct (save_files w (S n) ms) as [t' r]; cbn [fst snd] in *.
        rewrite calls_app, Hk. split; [by apply prefix_cons|].
        intros n' Hr. simpl. f_equal. by eapply IH2.
    + rewrite Hk. split; [apply prefix_cons, prefix_nil|done].
  - rewrite filter_cons_False by (simpl; by rewrite Hname). apply IH.
Qed.

(** X7. In every run the calls of [write_codes_to_file] follow the
    records in the order of the response, skipping the unnamed ones, with
    the README last: the calls made are always a prefix of that list, and
    when [_execute] reports success they are the whole list. *)
Theorem calls_follow_records (w : world) (spec_description content : str)
        (t0 : list event) :
  ask_model w spec_description = (t0, Normal content) ->
  calls (fst (_execute w spec_description))
  `prefix_of` (saved_records content ++ [(README_md, before_first_fence content)])
  /\ (snd (_execute w spec_description) = Normal msg_success ->
      calls (fst (_execute w spec_description))
      = saved_records content ++ [(README_md, before_first_fence content)]).
Proof.
  intros Hask.
  pose proof (calls_ask_model w spec_description) as H0. rewrite Hask in H0.
  simpl in H0.
  destruct (save_files_calls w (finditer regex_blocks content) 0) as [Hpre Hall].
  fold (file_records content) in Hpre, Hall. fold (saved_records content) in Hpre, Hall.
  unfold _execute, try_except, bind. rewrite Hask.
  destruct (save_files w 0 (finditer regex_blocks content))
    as [t1 [[n [s|]]|ex]] eqn:Hloop; cbn [fst snd] in *.
  - apply save_files_returned in Hloop.
    unfold ret. cbn [fst snd]. rewrite !app_nil_r, calls_app, H0. cbn [app]. split.
    + by apply prefix_app_r.
    + intros [= ->]. by vm_compute in Hloop.
  - rewrite (Hall n eq_refl) in Hpre.
    unfold save_readme. rewrite split_length_pos, split_head. unfold bind.
    pose proof (write_codes_to_file_calls (call_env w n) (before_first_fence content)
                                          README_md) as Hk.
    destruct (write_codes_to_file (call_env w n) (before_first_fence content) README_md)
      as [tr [s|ex]]; cbn [fst snd] in *.
    + assert (calls (t0 ++ t1 ++ tr)
              = saved_records content ++ [(README_md, before_first_fence content)]) as E.
      { rewrite !calls_app, H0, Hk. cbn [app]. by rewrite (Hall n eq_refl). }
      destruct (startswith s (lit "Error")); unfold ret; cbn [fst snd];
        rewrite !app_nil_r, E; done.
    + unfold emit, ret. cbn [fst snd app]. rewrite !calls_app, H0, Hk.
      cbn [app calls]. rewrite (Hall n eq_refl), app_nil_r. done.
  - unfold emit, ret. cbn [fst snd app]. rewrite !calls_app, H0.
    cbn [app calls]. rewrite app_nil_r.
    split; [by apply prefix_app_r|]. intros H. by vm_compute in H.
Qed.

Lemma calls_follow_records_witness :
  snd (_execute world_two_files []) = Normal msg_success
  /\ calls (fst (_execute world_two_files []))
     = [(lit "main.py", text ["import util"]); (lit "util.py", text ["x = 1"]);
        (README_md, text ["Two files."; ""; "main.py"])].
Proof.
  split; [vm_compute; reflexivity|].
  rewrite (proj2 (calls_follow_records world_two_files [] two_files_response
                                        (fst (ask_model world_two_files []))
                                        ltac:(vm_compute; reflexivity))
                 ltac:(vm_compute; reflexivity)).
  vm_compute. reflexivity.
Defined.

(** X8. The ways in which no text comes from the model, and what
    [_execute] makes of each: without a model no call is made; a call that
    raises is a failed call; a result without the key, or with [None] under
    it, comes from a call that completed. In each case the exception is
    logged and its text returned after the generation prefix, and
    [write_codes_to_file] is never called. *)
Theorem model_failure_is_reported (w : world) (spec_description : str) :
  (llm w = None ->
   _execute w spec_description
   = ([LogError msg_no_chat_completion],
      Normal (msg_error_generating ++ msg_no_chat_completion)))
  /\ (forall chat_completion ex,
        llm w = Some chat_completion ->
        chat_completion (prompt_of w spec_description) = Raised ex ->
        _execute w spec_description
        = ([Did (ChatCompletion (prompt_of w spec_description)) false;
            LogError (str_of_exn ex)],
           Normal (msg_error_generating ++ str_of_exn ex)))
  /\ (forall chat_completion result,
        llm w = Some chat_completion ->
        chat_completion (prompt_of w spec_description) = Normal result ->
        result !! lit "content" = None ->
        _execute w spec_description
        = ([Did (ChatCompletion (prompt_of w spec_description)) true;
            LogError (str_of_exn (KeyError (lit "content")))],
           Normal (msg_error_generating ++ str_of_exn (KeyError (lit "content")))))
  /\ (forall chat_completion result,
        llm w = Some chat_completion ->
        chat_completion (prompt_of w spec_description) = Normal result ->
        result !! lit "content" = Some PyNone ->
        _execute w spec_description
        = ([Did (ChatCompletion (prompt_of w spec_description)) true;
            LogError (str_of_exn (TypeError msg_not_a_string))],
           Normal (msg_error_generating ++ str_of_exn (TypeError msg_not_a_string))))
  /\ (model_text w spec_description = None ->
      calls (fst (_execute w spec_description)) = []
      /\ exists ex, snd (_execute w spec_description)
                    = Normal (msg_error_generating ++ str_of_exn ex)).
Proof.
  unfold _execute, try_except, bind. rewrite ask_model_prompt.
  unfold model_text, content_of, emit, ret, raise, bind.
  repeat split.
  - by intros ->.
  - by intros f ex -> ->.
  - by intros f result -> -> ->.
  - by intros f result -> -> ->.
  - destruct (llm w) as [f|]; [|done].
    destruct (f (prompt_of w spec_description)) as [result|ex]; [|done].
    by destruct (result !! lit "content") as [[c|]|].
  - destruct (llm w) as [f|]; [|by eauto].
    destruct (f (prompt_of w spec_description)) as [result|ex]; [|by eauto].
    destruct (result !! lit "content") as [[c|]|]; [done| |]; by eauto.
Qed.

Lemma model_failure_is_reported_witness :
  _execute world_no_content (lit "a web shop")
  = ([Did (ChatCompletion (prompt_of world_no_content (lit "a web shop"))) true;
      LogError (lit "'content'")],
     Normal (lit "Error generating codes: 'content'")).
Proof.
  exact (proj1 (proj2 (proj2 (model_failure_is_reported world_no_content
                                                        (lit "a web shop"))))
               _ _ eq_refl eq_refl ltac:(vm_compute; reflexivity)).
Defined.

(** No model set, and a model that raises. *)
Example runs_without_answer :
  _execute world_no_llm (lit "a web shop")
  = ([LogError msg_no_chat_completion],
     Normal (lit "Error generating codes: 'NoneType' object has no attribute 'chat_completion'"))
  /\ snd (_execute world_no_model (lit "a web shop"))
     = Normal (lit "Error generating codes: timeout").
Proof. split; vm_compute; reflexivity. Qed.

Lemma no_session_fs (e : env) (content name : str)
      (file_of : str -> str) (fs : files) :
  fail e ConnectDb <> None \/ fail e MakeSessionFactory <> None
  \/ fail e OpenSession <> None ->
  fs_after file_of fs (fst (write_codes_to_file e content name)) = fs.
Proof.
  intros H. unfold write_codes_to_file, try_except_local, open_session, on_error,
    prim, emit, ret, raise, bind.
  destruct (fail e ConnectDb); [done|].
  destruct (fail e MakeSessionFactory); [done|].
  destruct (fail e OpenSession); [done|].
  by destruct H as [H|[H|H]].
Qed.

(** With an unreachable catalog the loop either finds no named record, or
    raises at its first call. *)
Lemma save_files_no_session (w : world) (ms : list re_match) (n : nat) :
  fail (call_env w n) ConnectDb <> None \/ fail (call_env w n) MakeSessionFactory <> None
  \/ fail (call_env w n) OpenSession <> None ->
  save_files w n ms = ([], Normal (n, None))
  \/ (snd (save_files w n ms) = Raised (UnboundLocalError (lit "session"))
      /\ length (calls (fst (save_files w n ms))) = 1%nat
      /\ forall file_of fs, fs_after file_of fs (fst (save_files w n ms)) = fs).
Proof.
  intros H. induction ms as [|m ms IH]; [by left|].
  cbn [save_files]. destruct (truthy (strip (file_name_of m))); [|done].
  right. unfold bind.
  pose proof (write_codes_to_file_unbound _ (code_of m) (file_name_of m) H) as Hr.
  pose proof (write_codes_to_file_calls (call_env w n) (code_of m) (file_name_of m)) as Hk.
  pose proof (fun file_of fs => no_session_fs _ (code_of m) (file_name_of m) file_of fs H)
    as Hfs.
  destruct (write_codes_to_file (call_env w n) (code_of m) (file_name_of m)) as [tk r].
  cbn [fst snd] in *. subst r. cbn [fst snd]. by rewrite Hk.
Qed.

(** X9. When the model answers and the catalog cannot be reached,
    [_execute] attempts one call of [write_codes_to_file], which raises;
    the handler of [_execute] turns that into the generation error with the
    text of UnboundLocalError, and no file is written. *)
Theorem unreachable_catalog_in_run (w : world) (spec_description content : str)
        (t0 : list event) :
  ask_model w spec_description = (t0, Normal content) ->
  fail (call_env w 0) ConnectDb <> None \/ fail (call_env w 0) MakeSessionFactory <> None
  \/ fail (call_env w 0) OpenSession <> None ->
  snd (_execute w spec_description)
  = Normal (msg_error_generating ++ str_of_exn (UnboundLocalError (lit "session")))
  /\ length (calls (fst (_execute w spec_description))) = 1%nat
  /\ forall file_of fs, fs_after file_of fs (fst (_execute w spec_description)) = fs.
Proof.
  intros Hask H.
  pose proof (calls_ask_model w spec_description) as H0. rewrite Hask in H0.
  pose proof (fun file_of fs => fs_after_ask_model w spec_description file_of fs) as F0.
  rewrite Hask in F0. cbn [fst] in H0, F0.
  unfold _execute, try_except, bind. rewrite Hask.
  destruct (save_files_no_session w (finditer regex_blocks content) 0 H)
    as [->|(Hr & Hc & Hfs)].
  - unfold save_readme. rewrite split_length_pos. unfold bind.
    pose proof (write_codes_to_file_unbound _ (nth 0 (split content fence) []) README_md H)
      as Hr.
    pose proof (write_codes_to_file_calls (call_env w 0) (nth 0 (split content fence) [])
                                          README_md) as Hk.
    pose proof (fun file_of fs =>
                  no_session_fs _ (nth 0 (split content fence) []) README_md file_of fs H)
      as Hfs.
    destruct (write_codes_to_file (call_env w 0) (nth 0 (split content fence) []) README_md)
      as [tr r]. cbn [fst snd] in *. subst r.
    unfold emit, ret. cbn [fst snd app].
    split; [done|]. split.
    + rewrite !calls_app, H0, Hk. reflexivity.
    + intros file_of fs. rewrite !fs_after_app, F0, Hfs. reflexivity.
  - destruct (save_files w 0 (finditer regex_blocks content)) as [t1 r].
    cbn [fst snd] in *. subst r.
    unfold emit, ret. cbn [fst snd app].
    split; [done|]. split.
    + rewrite !calls_app, H0. cbn [app calls]. by rewrite app_nil_r.
    + intros file_of fs. rewrite !fs_after_app, F0, Hfs. reflexivity.
Qed.

Lemma unreachable_catalog_in_run_witness :
  snd (_execute world_no_db [])
  = Normal (msg_error_generating ++ str_of_exn (UnboundLocalError (lit "session")))
  /\ calls (fst (_execute world_no_db [])) = [(lit "main.py", text ["print(1)"])].
Proof.
  split; [|vm_compute; reflexivity].
  exact (proj1 (unreachable_catalog_in_run world_no_db [] sample_response
                  (fst (ask_model world_no_db []))
                  ltac:(vm_compute; reflexivity) ltac:(left; discriminate))).
Defined.

(** ** The prompt *)

Lemma replace_from_skip (old new u X : str) :
  replace_from old new (length u) (u ++ X) = replace_from old new 0 X.
Proof. induction u as [|c u IH]; [done|]. simpl. apply IH. Qed.

(** Text in which no occurrence starts is copied. *)
Lemma replace_from_pass (old new u X : str) :
  (forall p q, u = p ++ q -> q <> [] -> startswith (q ++ X) old = false) ->
  replace_from old new 0 (u ++ X) = u ++ replace_from old new 0 X.
Proof.
  induction u as [|c u IH]; intros H; [done|].
  pose proof (H [] (c :: u) eq_refl ltac:(done)) as Hc.
  cbn [app replace_from] in *. rewrite Hc. f_equal. apply IH.
  intros p q -> Hq. by apply (H (c :: p) q).
Qed.

Lemma replace_from_hit (old new X : str) :
  old <> [] ->
  replace_from old new 0 (old ++ X) = new ++ replace_from old new 0 X.
Proof.
  intros Hne. destruct old as [|c old]; [done|].
  cbn [app replace_from].
  change (c :: old ++ X) with ((c :: old) ++ X). rewrite startswith_app.
  replace (length (c :: old) - 1)%nat with (length old) by (simpl; lia).
  by rewrite replace_from_skip.
Qed.

Lemma replace_from_none (old new s : str) :
  contains s old = false -> replace_from old new 0 s = s.
Proof.
  induction s as [|c s IH]; intros H; [done|].
  apply contains_false_cons in H as [H1 H2].
  cbn [replace_from]. rewrite H1. by rewrite IH.
Qed.

Lemma pass_without_first_char (c0 : N) (old u X : str) :
  forallb (fun c => negb (c0 =? c)) u = true ->
  forall p q, u = p ++ q -> q <> [] -> startswith (q ++ X) (c0 :: old) = false.
Proof.
  intros Hu p q -> Hq. destruct q as [|c q]; [done|].
  rewrite forallb_app in Hu. apply andb_true_iff in Hu as [_ Hu].
  simpl in Hu. apply andb_true_iff in Hu as [Hc _].
  apply negb_true_iff in Hc. simpl. by rewrite Hc.
Qed.

(** A text without the placeholder, followed by a newline, lets no
    occurrence of the placeholder start. *)
Lemma pass_goals_text (g X : str) :
  contains g (lit "{spec}") = false -> startswith X [nl] = true ->
  forall p q, g = p ++ q -> q <> [] ->
              startswith (q ++ X) (lit "{spec}") = false.
Proof.
  intros Hg HX p q -> Hq. apply contains_false_suffix in Hg.
  apply startswith_inv in HX as [X' ->].
  destruct q as [|c1 q]; [done|].
  apply contains_false_cons in Hg as [Hg _].
  destruct (startswith ((c1 :: q) ++ [nl] ++ X') (lit "{spec}")) eqn:E; [|done].
  apply startswith_inv in E as [r E].
  destruct q as [|c2 [|c3 [|c4 [|c5 [|c6 q]]]]]; try discriminate E.
  injection E as -> -> -> -> -> -> _. by vm_compute in Hg.
Qed.

Lemma contains_app_r (a b sub : str) :
  contains b sub = true -> contains (a ++ b) sub = true.
Proof.
  intros H. induction a as [|c a IH]; [done|].
  simpl. rewrite IH. apply orb_true_r.
Qed.

(** What replaces an occurrence is found in the result. *)
Lemma replace_contains (s old new : str) :
  old <> [] -> contains s old = true -> contains (replace s old new) new = true.
Proof.
  intros Hne. unfold replace. induction s as [|c s IH]; intros H.
  - destruct old; [done|]. by simpl in H.
  - cbn [replace_from]. destruct (startswith (c :: s) old) eqn:E.
    + apply contains_startswith, startswith_app.
    + cbn [contains] in H. rewrite E in H. simpl in H.
      cbn [contains]. rewrite (IH H). apply orb_true_r.
Qed.

Lemma template_parts :
  prompt_template
  = before_goals ++ lit "{goals}" ++ before_spec ++ lit "{spec}" ++ after_spec.
Proof. vm_compute. reflexivity. Qed.

(** Line 142: the goals text takes the place of the one [{goals}]. *)
Lemma goals_replaced (g : str) :
  replace prompt_template (lit "{goals}") g
  = before_goals ++ g ++ before_spec ++ lit "{spec}" ++ after_spec.
Proof.
  rewrite template_parts at 1. unfold replace.
  rewrite replace_from_pass.
  - rewrite replace_from_hit by done. rewrite replace_from_none; [done|].
    vm_compute. reflexivity.
  - apply (pass_without_first_char 123). vm_compute. reflexivity.
Qed.

Lemma chats_app (a b : list event) : chats (a ++ b) = chats a ++ chats b.
Proof.
  induction a as [|[| [] | |] a IH]; simpl; by rewrite ?IH.
Qed.

Lemma write_codes_to_file_chats (e : env) (content name : str) :
  chats (fst (write_codes_to_file e content name)) = [].
Proof. run_persist; reflexivity. Qed.

Lemma save_files_chats (w : world) (ms : list re_match) (n : nat) :
  chats (fst (save_files w n ms)) = [].
Proof.
  revert n. induction ms as [|m ms IH]; intros n; [done|].
  cbn [save_files]. destruct (truthy (strip (file_name_of m))); [|apply IH].
  unfold bind.
  pose proof (write_codes_to_file_chats (call_env w n) (code_of m) (file_name_of m)) as Hk.
  destruct (write_codes_to_file (call_env w n) (code_of m) (file_name_of m))
    as [tk [s|ex]]; cbn [fst snd] in *; [|done].
  destruct (startswith s (lit "Error")).
  - unfold ret. cbn [fst]. by rewrite app_nil_r.
  - specialize (IH (S n)). destruct (save_files w (S n) ms) as [t' r].
    cbn [fst] in *. by rewrite chats_app, Hk, IH.
Qed.

(** An occurrence that starts in a text and needs a character that the
    text after it does not begin with lies inside the text. *)
Lemma startswith_inside (c0 : N) (old q X : str) :
  forallb (fun c => negb (c =? c0)) old = true ->
  startswith (q ++ c0 :: X) old = true -> startswith q old = true.
Proof.
  revert q. induction old as [|a old IH]; intros q Hold H; [done|].
  simpl in Hold. apply andb_true_iff in Hold as [Ha Hold].
  apply negb_true_iff in Ha.
  destruct q as [|b q]; simpl in *.
  - by rewrite Ha in H.
  - apply andb_true_iff in H as [-> H]. by apply IH.
Qed.

(** Replacing in a text and in what follows it, when no occurrence lies
    across the border. *)
Lemma replace_from_app (old new g X : str) (skip : nat) :
  (forall p q, g = p ++ q -> startswith (q ++ X) old = true -> startswith q old = true) ->
  (skip <= length g)%nat ->
  replace_from old new skip (g ++ X)
  = replace_from old new skip g ++ replace_from old new 0 X.
Proof.
  revert skip. induction g as [|c g IH]; intros skip Hin Hskip.
  - simpl in Hskip. by replace skip with 0%nat by lia.
  - assert (forall p q, g = p ++ q -> startswith (q ++ X) old = true ->
                        startswith q old = true) as Hin'
        by (intros p q -> Hq; by apply (Hin (c :: p) q)).
    cbn [app replace_from]. destruct skip as [|k].
    + destruct (startswith (c :: g ++ X) old) eqn:E.
      * pose proof (Hin [] (c :: g) eq_refl E) as E'. rewrite E'.
        rewrite <- app_assoc. f_equal. apply IH; [done|].
        apply startswith_inv in E' as [r E'].
        apply (f_equal length) in E'. rewrite length_app in E'. simpl in E'. lia.
      * destruct (startswith (c :: g) old) eqn:E'.
        { apply (startswith_mono _ X) in E'. simpl in E'. congruence. }
        simpl. f_equal. apply IH; [done|lia].
    + apply IH; [done|]. simpl in Hskip. lia.
Qed.

(** Lines 142-143 on the template: the goals text takes the place of
    [{goals}], and the specification the place of [{spec}], in the template
    and in the goals text alike. *)
Lemma prompt_parts (g spec_description : str) :
  replace (replace prompt_template (lit "{goals}") g) (lit "{spec}") spec_description
  = before_goals ++ replace g (lit "{spec}") spec_description ++ before_spec
    ++ spec_description ++ after_spec.
Proof.
  rewrite goals_replaced. unfold replace.
  rewrite replace_from_pass
    by (apply (pass_without_first_char 123); vm_compute; reflexivity).
  f_equal.
  rewrite replace_from_app; [|intros p q _|lia].
  - f_equal.
  - change (before_spec ++ lit "{spec}" ++ after_spec)
      with (nl :: drop 1 (before_spec ++ lit "{spec}" ++ after_spec)).
    by apply startswith_inside.
Qed.

(** X10. The prompt of a run is the template with the goals text at the
    place of [{goals}] and the specification at the place of [{spec}]; a
    [{spec}] that the goals text holds is replaced by the specification as
    well, so the prompt is the plain filling of the two places exactly when
    the goals text holds none. The prompt always holds the specification.
    It is what the model is called with, once, when a model is set; without
    one no call is made. *)
Theorem prompt_sent_to_model (w : world) (spec_description : str) :
  prompt_of w spec_description
  = before_goals
    ++ replace (add_list_items_to_string w (goals w)) (lit "{spec}") spec_description
    ++ before_spec ++ spec_description ++ after_spec
  /\ (contains (add_list_items_to_string w (goals w)) (lit "{spec}") = false ->
      prompt_of w spec_description
      = before_goals ++ add_list_items_to_string w (goals w) ++ before_spec
        ++ spec_description ++ after_spec)
  /\ contains (prompt_of w spec_description) spec_description = true
  /\ chats (fst (_execute w spec_description))
     = match llm w with
       | Some _ => [prompt_of w spec_description]
       | None => []
       end.
Proof.
  assert (prompt_of w spec_description
          = before_goals
            ++ replace (add_list_items_to_string w (goals w)) (lit "{spec}")
                       spec_description
            ++ before_spec ++ spec_description ++ after_spec) as E
      by apply prompt_parts.
  split; [done|]. split; [|split].
  - intros Hg. rewrite E. unfold replace. by rewrite replace_from_none.
  - rewrite E. rewrite !app_assoc. rewrite <- (app_assoc _ spec_description).
    apply contains_app.
  - unfold _execute, try_except, bind. rewrite ask_model_prompt.
    unfold content_of, emit, ret, raise, bind.
    destruct (llm w) as [f|]; [|done].
    destruct (f (prompt_of w spec_description)) as [result|ex]; [|done].
    destruct (result !! lit "content") as [[content|]|]; [|done|done].
    pose proof (save_files_chats w (finditer regex_blocks content) 0) as Hs.
    destruct (save_files w 0 (finditer regex_blocks content)) as [t1 [[n [s|]]|ex]];
      cbn [fst snd app chats] in *.
    + by rewrite !app_nil_r, Hs.
    + unfold save_readme. rewrite split_length_pos. unfold bind.
      pose proof (write_codes_to_file_chats (call_env w n)
                    (nth 0 (split content fence) []) README_md) as Hk.
      destruct (write_codes_to_file (call_env w n) (nth 0 (split content fence) [])
                                    README_md) as [tr [s|ex]]; cbn [fst snd] in *.
      * destruct (startswith s (lit "Error")); unfold ret; cbn [fst snd app chats];
          by rewrite !app_nil_r, chats_app, Hs, Hk.
      * cbn [fst snd app chats]. by rewrite !chats_app, Hs, Hk.
    + by rewrite chats_app, Hs.
Qed.

Lemma prompt_sent_to_model_witness :
  contains (add_list_items_to_string world_fine (goals world_fine)) (lit "{spec}") = false
  /\ prompt_of world_fine (lit "a web shop")
     = before_goals ++ before_spec ++ lit "a web shop" ++ after_spec.
Proof.
  split; [reflexivity|].
  exact (proj1 (proj2 (prompt_sent_to_model world_fine (lit "a web shop"))) eq_refl).
Defined.

(** ** The spans of the matches *)

Lemma scan_ends (s : str) :
  forall (u : str) (skip : nat) (m : re_match),
    m ∈ scan regex_blocks (length u) skip s ->
    exists rest,
      match_at regex_blocks (drop (m_start m) (u ++ s)) = Some (m_groups m, rest)
      /\ (m_end m + length rest = length (u ++ s))%nat.
Proof.
  induction s as [|c s IH]; intros u skip m Hm.
  - simpl in Hm. by apply elem_of_nil in Hm.
  - assert (S (length u) = length (u ++ [c])) as Hlen
        by (rewrite length_app; simpl; lia).
    assert ((u ++ [c]) ++ s = u ++ c :: s) as Happ by (by rewrite <- app_assoc).
    cbn [scan] in Hm. destruct skip as [|k].
    + destruct (match_at regex_blocks (c :: s)) as [[caps rest]|] eqn:E.
      * cbv zeta in Hm. apply elem_of_cons in Hm as [->|Hm].
        { exists rest. simpl. rewrite drop_app_length. split; [done|].
          destruct (match_at_length _ _ _ E) as (used & Hused & _).
          apply (f_equal length) in Hused. rewrite length_app in Hused.
          rewrite length_app. simpl in *. lia. }
        rewrite Hlen in Hm. destruct (IH _ _ _ Hm) as (rest' & H1 & H2).
        exists rest'. by rewrite <- Happ.
      * rewrite Hlen in Hm. destruct (IH _ _ _ Hm) as (rest' & H1 & H2).
        exists rest'. by rewrite <- Happ.
    + rewrite Hlen in Hm. destruct (IH _ _ _ Hm) as (rest' & H1 & H2).
      exists rest'. by rewrite <- Happ.
Qed.

Lemma scan_sorted (s : str) :
  forall (u : str) (skip i j : nat) (mi mj : re_match),
    (i < j)%nat ->
    scan regex_blocks (length u) skip s !! i = Some mi ->
    scan regex_blocks (length u) skip s !! j = Some mj ->
    (m_end mi <= m_start mj)%nat.
Proof.
  induction s as [|c s IH]; intros u skip i j mi mj Hij Hi Hj; [done|].
  assert (S (length u) = length (u ++ [c])) as Hlen
      by (rewrite length_app; simpl; lia).
  cbn [scan] in Hi, Hj. destruct skip as [|k].
  - destruct (match_at regex_blocks (c :: s)) as [[caps rest]|] eqn:E.
    + cbv zeta in Hi, Hj. rewrite Hlen in Hi, Hj.
      destruct j as [|j]; [lia|]. cbn [lookup list_lookup] in Hj.
      destruct i as [|i].
      * injection Hi as <-. cbn [m_end].
        assert (mj ∈ scan regex_blocks (length (u ++ [c]))
                     (length (c :: s) - length rest - 1) s) as Hin
            by (apply list_elem_of_lookup; by exists j).
        destruct (scan_inv _ _ _ _ Hin) as (Hle & _).
        destruct (match_at_length _ _ _ E) as (used & Hused & Hn).
        apply (f_equal length) in Hused. rewrite length_app in Hused.
        simpl in *. lia.
      * cbn [lookup list_lookup] in Hi. eapply (IH (u ++ [c])); [|done|done]. lia.
    + rewrite Hlen in Hi, Hj. by eapply (IH (u ++ [c])).
  - rewrite Hlen in Hi, Hj. by eapply (IH (u ++ [c])).
Qed.

(** X11. The matches are disjoint pieces of the response, in order: each
    one spans a name token, a newline, a fence, a tag token, a newline, a
    code that is not empty and ends at the first fence after its first
    character, and that fence; its groups are the name and the code; a
    later match starts at or after its end. *)
Theorem matches_are_disjoint_blocks (s : str) (i : nat) (m : re_match) :
  finditer regex_blocks s !! i = Some m ->
  (exists lang,
      token (group m 1) = true /\ token lang = true
      /\ closes_first (group m 2) = true
      /\ take (m_end m - m_start m) (drop (m_start m) s)
         = group m 1 ++ nl :: fence ++ lang ++ nl :: group m 2 ++ fence)
  /\ (m_start m + 11 <= m_end m)%nat /\ (m_end m <= length s)%nat
  /\ (forall j m', (i < j)%nat -> finditer regex_blocks s !! j = Some m' ->
                   (m_end m <= m_start m')%nat).
Proof.
  intros Hi.
  assert (m ∈ scan regex_blocks (length (@nil N)) 0 s) as Hm
      by (apply list_elem_of_lookup; by exists i).
  destruct (scan_ends s [] 0 m Hm) as (rest & Hmatch & Hend).
  simpl in Hmatch, Hend.
  destruct (match_at_length _ _ _ Hmatch) as (used & Hused & Hn).
  destruct (match_at_inv _ _ _ Hmatch) as (name & lang & code & Hg & Hdrop & Hn1 & Hl & Hc).
  assert (length (drop (m_start m) s) = length used + length rest)%nat as Hlen
      by (by rewrite Hused, length_app).
  rewrite length_drop in Hlen.
  assert (m_end m - m_start m = length used)%nat as Hspan by lia.
  assert (used = name ++ nl :: fence ++ lang ++ nl :: code ++ fence) as Hu.
  { apply (app_inv_tail rest). rewrite <- Hused, Hdrop.
    repeat (rewrite <- app_assoc; simpl). reflexivity. }
  split; [|split; [lia|split; [lia|]]].
  - exists lang. unfold group. rewrite Hg. simpl.
    repeat split; try done.
    rewrite Hspan, Hused, take_app_length. exact Hu.
  - intros j m' Hij Hj. by eapply (scan_sorted s [] 0 i j).
Qed.

Lemma matches_are_disjoint_blocks_witness :
  finditer regex_blocks two_files_response
  = [MkMatch 12 45 [lit "main.py"; text ["import util"]];
     MkMatch 47 74 [lit "util.py"; text ["x = 1"]]]
  /\ (45 <= 47)%nat.
Proof.
  split; [vm_compute; reflexivity|].
  exact (proj2 (proj2 (proj2 (matches_are_disjoint_blocks
                                two_files_response 0
                                (MkMatch 12 45 [lit "main.py"; text ["import util"]])
                                ltac:(vm_compute; reflexivity))))
               1%nat (MkMatch 47 74 [lit "util.py"; text ["x = 1"]])
               ltac:(lia) ltac:(vm_compute; reflexivity)).
Defined.

(** ** File names *)

Lemma re_sub_class_app (cls : N -> bool) (a b : str) :
  re_sub_class cls (a ++ b) = re_sub_class cls a ++ re_sub_class cls b.
Proof. apply filter_app. Qed.

Lemma re_sub_class_keeps (cls cls' : N -> bool) (s : str) :
  forallb cls' s = true -> forallb cls' (re_sub_class cls s) = true.
Proof.
  unfold re_sub_class. induction s as [|c s IH]; [done|].
  simpl. intros H. apply andb_true_iff in H as [Hc H].
  destruct (decide (cls c = false)).
  - rewrite filter_cons_True by done. simpl. by rewrite Hc, IH.
  - rewrite filter_cons_False by done. by apply IH.
Qed.

Lemma re_sub_class_id (cls : N -> bool) (s : str) :
  re_sub_class cls s = s <-> forallb (fun c => negb (cls c)) s = true.
Proof.
  unfold re_sub_class. induction s as [|c s IH]; [done|].
  simpl. destruct (cls c) eqn:Hc.
  - rewrite filter_cons_False by (by rewrite Hc). simpl. split; [|done].
    intros H. pose proof (length_filter (fun c => cls c = false) s) as Hlen.
    rewrite H in Hlen. simpl in Hlen. lia.
  - rewrite filter_cons_True by done. simpl. rewrite <- IH. split.
    + by intros [= H].
    + by intros ->.
Qed.

Lemma re_sub_class_empty (cls : N -> bool) (s : str) :
  re_sub_class cls s = [] <-> forallb cls s = true.
Proof.
  unfold re_sub_class. induction s as [|c s IH]; [done|].
  simpl. destruct (cls c) eqn:Hc.
  - rewrite filter_cons_False by (by rewrite Hc). by rewrite IH.
  - rewrite filter_cons_True by done. done.
Qed.

Lemma lstrip_token (s : str) : forallb non_space s = true -> lstrip s = s.
Proof.
  destruct s as [|c s]; [done|]. simpl. intros H.
  apply andb_true_iff in H as [Hc _]. unfold non_space in Hc.
  apply negb_true_iff in Hc. by rewrite Hc.
Qed.

Lemma strip_token (s : str) : forallb non_space s = true -> strip s = s.
Proof.
  intros H. unfold strip. rewrite (lstrip_token s H), lstrip_token.
  - apply rev_involutive.
  - rewrite forallb_forall in *. intros c Hc. apply H. by apply in_rev.
Qed.

(** X12. The file name of a match holds no white space and none of the
    six characters, so [strip()] leaves it as it is: the guard of line 161
    only asks whether the name is empty, and a record is skipped exactly
    when its captured token is made of the six characters alone. *)
Theorem guard_is_emptiness (s : str) (i : nat) (m : re_match) :
  finditer regex_blocks s !! i = Some m ->
  strip (file_name_of m) = file_name_of m
  /\ forallb non_space (file_name_of m) = true
  /\ forallb (fun c => negb (forbidden c)) (file_name_of m) = true
  /\ (truthy (strip (file_name_of m)) = false
      <-> forallb forbidden (group m 1) = true).
Proof.
  intros Hi.
  assert (m ∈ scan regex_blocks (length (@nil N)) 0 s) as Hm
      by (apply list_elem_of_lookup; by exists i).
  destruct (scan_inv s [] 0 m Hm) as (_ & [rest Hmatch] & _).
  destruct (match_at_inv _ _ _ Hmatch) as (name & lang & code & Hg & _ & Hn & _).
  assert (group m 1 = name) as Hname by (unfold group; by rewrite Hg).
  apply andb_true_iff in Hn as [_ Hn].
  assert (forallb non_space (file_name_of m) = true) as Hns.
  { unfold file_name_of. rewrite Hname. by apply re_sub_class_keeps. }
  split; [by apply strip_token|]. split; [done|]. split.
  - unfold file_name_of. apply forallb_forall. intros c Hc.
    apply list_elem_of_In, re_sub_class_clean in Hc. by rewrite Hc.
  - rewrite (strip_token _ Hns). unfold file_name_of.
    rewrite <- re_sub_class_empty.
    destruct (re_sub_class forbidden (group m 1)); simpl; split; done.
Qed.

Lemma guard_is_emptiness_witness :
  finditer regex_blocks unnamed_response !! 0%nat
  = Some (MkMatch 0 13 [lit "?*"; lit "x"])
  /\ truthy (strip (file_name_of (MkMatch 0 13 [lit "?*"; lit "x"]))) = false.
Proof.
  split; [vm_compute; reflexivity|].
  exact (proj2 (proj2 (proj2 (proj2 (guard_is_emptiness
                                       unnamed_response 0
                                       (MkMatch 0 13 [lit "?*"; lit "x"])
                                       ltac:(vm_compute; reflexivity)))))
               eq_refl).
Defined.

(** X13. Line 155 removes the six characters < > | ? * and the double
    quote, and only these: a character is in the file name exactly when it
    is in the captured token and is none of the six, and the name is the
    token itself exactly when the token holds none of them. The path
    separator, the dot, the backslash and the colon are not among them, so
    they stay where they are: a token that begins with ../ gives a file name
    that begins with ../ . *)
Theorem sanitizing_file_names (a b : str) :
  (forall c, c ∈ re_sub_class forbidden a <-> c ∈ a /\ c ∉ six_characters)
  /\ (re_sub_class forbidden a = a <-> forall c, c ∈ a -> c ∉ six_characters)
  /\ (forall c, c ∈ [slash; 46; 92; 58] ->
                re_sub_class forbidden (a ++ c :: b)
                = re_sub_class forbidden a ++ c :: re_sub_class forbidden b)
  /\ re_sub_class forbidden (lit "../" ++ a) = lit "../" ++ re_sub_class forbidden a.
Proof.
  split; [|split; [|split]].
  - intros c. rewrite re_sub_class_six. unfold without.
    by rewrite list_elem_of_filter, (comm and).
  - rewrite re_sub_class_id, forallb_forall. split.
    + intros H c Hc. rewrite <- forbidden_six.
      apply list_elem_of_In, H in Hc. by destruct (forbidden c).
    + intros H c Hc. apply list_elem_of_In, H in Hc.
      rewrite <- forbidden_six in Hc. by destruct (forbidden c).
  - intros c Hc. rewrite re_sub_class_app. f_equal.
    unfold re_sub_class. apply filter_cons_True.
    rewrite !elem_of_cons, elem_of_nil in Hc.
    by destruct Hc as [->|[->|[->|[->|[]]]]].
  - by rewrite re_sub_class_app.
Qed.

Lemma sanitizing_file_names_witness :
  re_sub_class forbidden (lit "../src/ma?in*.py") = lit "../src/main.py".
Proof.
  exact (proj2 (proj2 (proj2 (sanitizing_file_names (lit "src/ma?in*.py") [])))).
Defined.

(** ** The README *)

Lemma before_first_fence_prefix (s : str) :
  exists r, s = before_first_fence s ++ r.
Proof.
  induction s as [|c s [r IH]]; [by exists []|].
  cbn [before_first_fence]. destruct (startswith (c :: s) fence).
  - by exists (c :: s).
  - exists r. simpl. by rewrite <- IH.
Qed.

Lemma before_first_fence_split (s : str) :
  contains s fence = true -> exists rest, s = before_first_fence s ++ fence ++ rest.
Proof.
  induction s as [|c s IH]; intros H; [done|].
  cbn [before_first_fence]. destruct (startswith (c :: s) fence) eqn:E.
  - apply startswith_inv in E as [r ->]. by exists r.
  - cbn [contains] in H. rewrite E in H. simpl in H.
    destruct (IH H) as [rest Hrest]. exists rest.
    rewrite <- app_comm_cons. by f_equal.
Qed.

Lemma before_first_fence_clean (s : str) :
  contains (before_first_fence s) fence = false.
Proof.
  induction s as [|c s IH]; [done|].
  cbn [before_first_fence]. destruct (startswith (c :: s) fence) eqn:E; [done|].
  cbn [contains]. rewrite IH, orb_false_r.
  destruct (startswith (c :: before_first_fence s) fence) eqn:E'; [|done].
  destruct (before_first_fence_prefix s) as [r Hr].
  apply (startswith_mono _ r) in E'.
  change ((c :: before_first_fence s) ++ r) with (c :: (before_first_fence s ++ r)) in E'.
  rewrite <- Hr in E'. congruence.
Qed.

(** X14. The README that is saved is a prefix of the response and holds
    no fence; when the response has a fence, the response is the README,
    the fence and the rest, and when it has none the README is the whole
    response. *)
Theorem readme_is_prefix (content : str) :
  nth 0 (split content fence) [] `prefix_of` content
  /\ contains (nth 0 (split content fence) []) fence = false
  /\ (contains content fence = true ->
      exists rest, content = nth 0 (split content fence) [] ++ fence ++ rest)
  /\ (contains content fence = false -> nth 0 (split content fence) [] = content).
Proof.
  rewrite split_head. split; [|split; [|split]].
  - destruct (before_first_fence_prefix content) as [r Hr]. by exists r.
  - apply before_first_fence_clean.
  - apply before_first_fence_split.
  - apply before_first_fence_none.
Qed.

Lemma readme_is_prefix_witness :
  contains two_files_response fence = true
  /\ exists rest,
       two_files_response
       = nth 0 (split two_files_response fence) [] ++ fence ++ rest.
Proof.
  split; [reflexivity|].
  exact (proj1 (proj2 (proj2 (readme_is_prefix two_files_response))) eq_refl).
Defined.

(** ** More on path resolution *)

Lemma endswith_app_nonempty (r x : str) :
  x <> [] -> endswith (r ++ x) [slash] = endswith x [slash].
Proof.
  intros Hx. unfold endswith. rewrite rev_app_distr.
  destruct (rev x) as [|c y] eqn:E; [|done].
  apply (f_equal (@rev N)) in E. rewrite rev_involutive in E. done.
Qed.

(** X15. An empty configured root resolves like no root at all; the
    destination is absolute whenever the working directory is; distinct
    logical names never resolve to the same destination; and a root given
    with its trailing separator resolves like the same root without it. *)
Theorem path_resolution_edges (cwd0 name : str) :
  final_path (Some []) cwd0 name = final_path None cwd0 name
  /\ (startswith cwd0 [slash] = true ->
      forall root, startswith (final_path root cwd0 name) [slash] = true)
  /\ (forall root name', final_path root cwd0 name = final_path root cwd0 name' ->
                         name = name')
  /\ (forall r, r <> [] -> endswith r [slash] = false ->
                final_path (Some (r ++ [slash])) cwd0 name = final_path (Some r) cwd0 name).
Proof.
  split; [|split; [|split]].
  - unfold final_path, absolute_root, closed_root. simpl.
    rewrite endswith_snoc. by rewrite <- app_assoc.
  - intros Hcwd [root|]; cbn [final_path].
    + apply startswith_mono. unfold closed_root.
      assert (startswith (absolute_root root cwd0) [slash] = true) as Ha.
      { unfold absolute_root. destruct (startswith root [slash]) eqn:E; [done|].
        by apply startswith_mono. }
      destruct (endswith (absolute_root root cwd0) [slash]); [done|].
      by apply startswith_mono.
    + by apply startswith_mono.
  - intros [root|] name' H; simpl in H.
    + by apply app_inv_head in H.
    + apply app_inv_head in H. by injection H.
  - intros r Hr Hend. unfold final_path. f_equal.
    unfold absolute_root, closed_root.
    assert (startswith (r ++ [slash]) [slash] = startswith r [slash]) as ->
        by (by destruct r).
    destruct (startswith r [slash]).
    + by rewrite endswith_snoc, Hend.
    + rewrite (endswith_app_nonempty cwd0 ([slash] ++ r)) by done.
      rewrite (endswith_app_nonempty [slash] r Hr), Hend.
      rewrite !app_assoc, endswith_snoc. done.
Qed.

Lemma path_resolution_edges_witness :
  final_path (Some (lit "out/")) (lit "/work") (lit "main.py")
  = final_path (Some (lit "out")) (lit "/work") (lit "main.py")
  /\ startswith (final_path (Some (lit "out")) (lit "/work") (lit "main.py")) [slash] = true.
Proof.
  pose proof (path_resolution_edges (lit "/work") (lit "main.py")) as (_ & H2 & _ & H4).
  split.
  - exact (H4 (lit "out") ltac:(discriminate) eq_refl).
  - exact (H2 eq_refl (Some (lit "out"))).
Defined.

(** ** Fences without a language tag *)

Lemma has_tagged_fence_app (a b : str) (c : N) :
  non_space c = true -> has_tagged_fence (a ++ nl :: fence ++ c :: b) = true.
Proof.
  intros Hc. induction a as [|d a IH].
  - cbn [app has_tagged_fence].
    change (nl :: fence ++ c :: b) with ((nl :: fence) ++ c :: b).
    rewrite startswith_app. simpl. by rewrite Hc.
  - cbn [app has_tagged_fence]. rewrite IH. apply orb_true_r.
Qed.

Lemma has_tagged_fence_suffix (a b : str) :
  has_tagged_fence (a ++ b) = false -> has_tagged_fence b = false.
Proof.
  induction a as [|d a IH]; [done|].
  cbn [app has_tagged_fence]. intros H. apply orb_false_iff in H as [_ H]. auto.
Qed.

(** X16. Where no line starts with a fence that carries a language tag,
    the pattern matches nowhere: there is no file record, and the only call
    of [write_codes_to_file] is the one for README.md with the text before
    the first fence, so the code of untagged blocks reaches no file. *)
Theorem untagged_fences_give_no_record
        (w : world) (spec_description content : str) (t0 : list event) :
  ask_model w spec_description = (t0, Normal content) ->
  has_tagged_fence content = false ->
  file_records content = []
  /\ calls (fst (_execute w spec_description))
     = [(README_md, before_first_fence content)].
Proof.
  intros Hask Hno.
  assert (finditer regex_blocks content = []) as Hfind.
  { unfold finditer. rewrite <- (app_nil_r content), scan_no_match; [done|].
    intros p q -> Hq. rewrite app_nil_r.
    apply has_tagged_fence_suffix in Hno.
    destruct (match_at regex_blocks q) as [[caps rest]|] eqn:E; [|done].
    apply match_at_inv in E as (name & lang & code & _ & -> & _ & Hl & _).
    apply andb_true_iff in Hl as [Hl1 Hl2].
    destruct lang as [|c lang]; [done|].
    simpl in Hl2. apply andb_true_iff in Hl2 as [Hc _].
    change (name ++ nl :: fence ++ (c :: lang) ++ nl :: code ++ fence ++ rest)
      with (name ++ nl :: fence ++ c :: (lang ++ nl :: code ++ fence ++ rest)) in Hno.
    by rewrite has_tagged_fence_app in Hno. }
  split; [by unfold file_records; rewrite Hfind|].
  assert (save_files w 0 (finditer regex_blocks content) = ([], Normal (0%nat, None)))
    as Hloop by (by rewrite Hfind).
  destruct (execute_readme w spec_description content t0 [] 0 Hask Hloop)
    as (tail & -> & Htail).
  pose proof (calls_ask_model w spec_description) as H0. rewrite Hask in H0.
  simpl in H0. rewrite !calls_app, H0, write_codes_to_file_calls.
  by destruct Htail as [->|[msg ->]].
Qed.

Lemma untagged_fences_give_no_record_witness :
  has_tagged_fence untagged_response = false
  /\ calls (fst (_execute (world_of (fun _ => env_ok None) untagged_response) []))
     = [(README_md, text ["Here it is."; "main.py"])].
Proof.
  split; [reflexivity|].
  rewrite (proj2 (untagged_fences_give_no_record
                    (world_of (fun _ => env_ok None) untagged_response) []
                    untagged_response
                    (fst (ask_model (world_of (fun _ => env_ok None) untagged_response) []))
                    ltac:(vm_compute; reflexivity) ltac:(reflexivity))).
  vm_compute. reflexivity.
Defined.

(** ** Blocks without code *)

Lemma token_line_unique (a a' X X' : str) :
  forallb non_space a = true -> forallb non_space a' = true ->
  a ++ nl :: X = a' ++ nl :: X' -> a = a' /\ X = X'.
Proof.
  revert a'. induction a as [|c a IH]; intros [|c' a'] Ha Ha' E; simpl in *.
  - by injection E.
  - injection E as <- _. by rewrite is_space_nl_non in Ha'.
  - injection E as -> _. by rewrite is_space_nl_non in Ha.
  - apply andb_true_iff in Ha as [_ Ha]. apply andb_true_iff in Ha' as [_ Ha'].
    injection E as -> E. destruct (IH _ Ha Ha' E) as [-> ->]. done.
Qed.

(** X17. A block without code is never matched as such: [.+?] takes the
    first backtick of what should close it, so a match at its name, if
    there is one, has a code that begins with that backtick and runs on to
    a later fence; and when no fence follows, there is no match at all. *)
Theorem empty_block_runs_on (name lang rest : str) :
  token name = true -> token lang = true ->
  (forall caps r,
      match_at regex_blocks (name ++ nl :: fence ++ lang ++ nl :: fence ++ rest)
      = Some (caps, r) ->
      exists code', caps = [name; bt :: code'] /\ bt :: bt :: rest = code' ++ fence ++ r)
  /\ (contains (bt :: bt :: rest) fence = false ->
      match_at regex_blocks (name ++ nl :: fence ++ lang ++ nl :: fence ++ rest) = None).
Proof.
  intros Hname Hlang.
  assert (forall caps r,
      match_at regex_blocks (name ++ nl :: fence ++ lang ++ nl :: fence ++ rest)
      = Some (caps, r) ->
      exists code', caps = [name; bt :: code'] /\ bt :: bt :: rest = code' ++ fence ++ r)
    as Hrun.
  { intros caps r E.
    apply match_at_inv in E as (name' & lang' & code & -> & E & Hn' & Hl' & Hc).
    apply andb_true_iff in Hname as [_ Hname]. apply andb_true_iff in Hn' as [_ Hn'].
    apply andb_true_iff in Hlang as [_ Hlang]. apply andb_true_iff in Hl' as [_ Hl'].
    destruct (token_line_unique _ _ _ _ Hname Hn' E) as [<- E1].
    apply app_inv_head in E1.
    destruct (token_line_unique _ _ _ _ Hlang Hl' E1) as [<- E2].
    destruct code as [|c code']; [done|].
    injection E2 as <- E2. by exists code'. }
  split; [done|].
  intros Hno.
  destruct (match_at regex_blocks (name ++ nl :: fence ++ lang ++ nl :: fence ++ rest))
    as [[caps r]|] eqn:E; [|done].
  destruct (Hrun _ _ eq_refl) as (code' & _ & Hrest).
  rewrite Hrest in Hno. by rewrite contains_app in Hno.
Qed.

Lemma empty_block_runs_on_witness :
  match_at regex_blocks (text ["a.py"; "```py"; "```"; "b.py"]) = None.
Proof.
  exact (proj2 (empty_block_runs_on (lit "a.py") (lit "py") (nl :: text ["b.py"])
                                    eq_refl eq_refl) eq_refl).
Defined.

(** ** The files of a successful run *)

Lemma saved_call_writes (e : env) (content name s : str)
      (file_of : str -> str) (fs : files) :
  snd (write_codes_to_file e content name) = Normal s ->
  startswith s (lit "Error") = false ->
  fs_after file_of fs (fst (write_codes_to_file e content name))
  = <[file_of (final_path (config_root e) (cwd e) name) := Holds content]> fs.
Proof.
  rewrite write_codes_to_file_fs.
  run_persist; simpl; intros [= <-] Hs; try (by vm_compute in Hs); done.
Qed.

Lemma save_files_fs (w : world) (root : option str) (cwd0 : str)
      (ms : list re_match) (n n' : nat) (t : list event)
      (file_of : str -> str) (fs : files) :
  (forall k, config_root (call_env w k) = root /\ cwd (call_env w k) = cwd0) ->
  save_files w n ms = (t, Normal (n', None)) ->
  fs_after file_of fs t
  = foldl (fun fs' rec => <[file_of (final_path root cwd0 (fst rec)) := Holds (snd rec)]> fs')
          fs
          (filter (fun rec => truthy (strip (fst rec)) = true)
                  (map (fun m => (file_name_of m, code_of m)) ms)).
Proof.
  intros Henv. revert n t fs. induction ms as [|m ms IH]; intros n t fs H.
  - by injection H as <- _.
  - cbn [save_files map] in *.
    destruct (truthy (strip (file_name_of m))) eqn:Hname.
    + rewrite filter_cons_True by done. unfold bind in H.
      pose proof (fun s => saved_call_writes (call_env w n) (code_of m) (file_name_of m)
                                             s file_of fs) as Hw.
      destruct (Henv n) as [Hroot Hcwd]. rewrite Hroot, Hcwd in Hw.
      destruct (write_codes_to_file (call_env w n) (code_of m) (file_name_of m))
        as [tk [s|ex]]; [|done].
      cbn [fst snd] in Hw.
      destruct (startswith s (lit "Error")) eqn:Hs; [done|].
      destruct (save_files w (S n) ms) as [t' [[n'' [s'|]]|ex]] eqn:Hrest; try done.
      injection H as <- <-.
      rewrite fs_after_app, (Hw s eq_refl Hs). cbn [foldl fst snd].
      by eapply IH.
    + rewrite filter_cons_False by (simpl; by rewrite Hname). by eapply IH.
Qed.

(** X18. When [_execute] reports success and the output root and the
    working directory are the same for all its calls, the files after the
    run are those before it with each saved record written to the file that
    its resolved path names, in the order of the response, and the README
    written last to the file of the README.md path: a later record of the
    same file, under the same path or another one, and the README, replace
    what was written before. *)
Theorem files_after_success (w : world) (spec_description content : str)
        (t0 : list event) (root : option str) (cwd0 : str)
        (file_of : str -> str) (fs : files) :
  ask_model w spec_description = (t0, Normal content) ->
  (forall k, config_root (call_env w k) = root /\ cwd (call_env w k) = cwd0) ->
  snd (_execute w spec_description) = Normal msg_success ->
  fs_after file_of fs (fst (_execute w spec_description))
  = foldl (fun fs' rec => <[file_of (final_path root cwd0 (fst rec)) := Holds (snd rec)]> fs')
          fs
          (saved_records content ++ [(README_md, before_first_fence content)]).
Proof.
  intros Hask Henv.
  pose proof (fs_after_ask_model w spec_description file_of) as F0. rewrite Hask in F0.
  cbn [fst] in F0.
  unfold _execute, try_except, bind. rewrite Hask.
  destruct (save_files w 0 (finditer regex_blocks content))
    as [t1 [[n [s|]]|ex]] eqn:Hloop; cbn [fst snd].
  - apply save_files_returned in Hloop. unfold ret. cbn [fst snd].
    intros [= ->]. by vm_compute in Hloop.
  - pose proof (save_files_fs w root cwd0 _ _ _ _ file_of fs Henv Hloop) as Hfs.
    fold (file_records content) in Hfs. fold (saved_records content) in Hfs.
    unfold save_readme. rewrite split_length_pos, split_head. unfold bind.
    pose proof (fun s => saved_call_writes (call_env w n) (before_first_fence content)
                                           README_md s file_of (fs_after file_of fs t1))
      as Hw.
    destruct (Henv n) as [Hroot Hcwd]. rewrite Hroot, Hcwd in Hw.
    destruct (write_codes_to_file (call_env w n) (before_first_fence content) README_md)
      as [tr [s|ex]]; cbn [fst snd] in *.
    + destruct (startswith s (lit "Error")) eqn:Hs; unfold ret; cbn [fst snd].
      * intros [= ->]. by vm_compute in Hs.
      * intros _. rewrite !app_nil_r, !fs_after_app, F0, (Hw s eq_refl Hs), Hfs.
        by rewrite foldl_app.
    + unfold emit, ret. cbn [fst snd]. intros H. by vm_compute in H.
  - unfold emit, ret. cbn [fst snd]. intros H. by vm_compute in H.
Qed.

Lemma files_after_success_witness :
  fs_after plain_path ∅ (fst (_execute world_dotted_readme []))
  = {[ lit "/work/out/README.md" := Holds (text ["Docs"; "./README.md"]) ]}.
Proof.
  rewrite (files_after_success world_dotted_readme [] dotted_readme_response
             (fst (ask_model world_dotted_readme [])) (Some (lit "out")) (lit "/work")
             plain_path ∅
             ltac:(vm_compute; reflexivity) ltac:(intros k; split; reflexivity)
             ltac:(vm_compute; reflexivity)).
  vm_compute. reflexivity.
Defined.

(** ** Success of a run *)

Lemma all_completed_app (a b : list event) :
  all_completed (a ++ b) = all_completed a && all_completed b.
Proof. apply forallb_app. Qed.

(** A call passes the test of lines 163 and 171 exactly when none of its
    own calls raised. *)
Lemma call_passes_iff_completed (e : env) (content name : str) :
  all_completed (fst (write_codes_to_file e content name)) = true
  <-> exists s, snd (write_codes_to_file e content name) = Normal s
                /\ startswith s (lit "Error") = false.
Proof.
  run_persist; simpl; split; try done;
    first [ by (intros _; eexists; split; [reflexivity|vm_compute; reflexivity])
          | intros (s & Hs & Herr); try done; injection Hs as <-; by vm_compute in Herr ].
Qed.

Lemma save_files_completed (w : world) (ms : list re_match) (n : nat) :
  all_completed (fst (save_files w n ms)) = true
  <-> exists n', snd (save_files w n ms) = Normal (n', None).
Proof.
  revert n. induction ms as [|m ms IH]; intros n.
  - simpl. split; [by exists n|done].
  - cbn [save_files]. destruct (truthy (strip (file_name_of m))); [|apply IH].
    unfold bind.
    pose proof (call_passes_iff_completed (call_env w n) (code_of m) (file_name_of m))
      as Hc.
    destruct (write_codes_to_file (call_env w n) (code_of m) (file_name_of m))
      as [tk [s|ex]]; cbn [fst snd] in *.
    + destruct (startswith s (lit "Error")) eqn:Hs.
      * unfold ret. cbn [fst snd]. rewrite app_nil_r. split.
        -- intros H. apply Hc in H as (s' & [= <-] & H). congruence.
        -- by intros [n' H].
      * specialize (IH (S n)).
        destruct (save_files w (S n) ms) as [t' r]. cbn [fst snd] in *.
        rewrite all_completed_app, <- IH.
        assert (all_completed tk = true) as -> by (apply Hc; eauto).
        done.
    + split.
      * intros H. by apply Hc in H as (s' & H & _).
      * by intros [n' H].
Qed.

(** X19. [_execute] reports success exactly in the runs in which a text
    came from the model (a model is set, and the result of its call holds
    text under the key) and no call raised: neither the model call nor any
    call made by any invocation of [write_codes_to_file]. *)
Theorem success_iff_nothing_raised (w : world) (spec_description : str) :
  snd (_execute w spec_description) = Normal msg_success
  <-> is_Some (model_text w spec_description)
      /\ all_completed (fst (_execute w spec_description)) = true.
Proof.
  assert (forall (t : list event) (x : str),
             (t, Normal (msg_error_generating ++ x)).2 = Normal msg_success
             <-> is_Some (@None str) /\ all_completed t = true) as Hnone.
  { intros t x. split.
    - intros H. by vm_compute in H.
    - by intros [[? H] _]. }
  unfold _execute, try_except, bind. rewrite ask_model_prompt.
  unfold model_text, content_of, emit, ret, raise, bind.
  destruct (llm w) as [f|]; [|apply Hnone].
  destruct (f (prompt_of w spec_description)) as [result|ex]; [|apply Hnone].
  destruct (result !! lit "content") as [[content|]|]; [|apply Hnone|apply Hnone].
  assert (is_Some (Some content)) as Hsome by eauto.
  cbn [app].
  pose proof (save_files_completed w (finditer regex_blocks content) 0) as Hl.
  destruct (save_files w 0 (finditer regex_blocks content))
    as [t1 [[n [s|]]|ex]] eqn:Hloop; cbn [fst snd] in *.
  - apply save_files_returned in Hloop. cbn [fst snd app].
    rewrite app_nil_r. split.
    + intros [= ->]. by vm_compute in Hloop.
    + intros [_ H]. cbn [all_completed forallb] in H. simpl in H.
      apply Hl in H as [n' H]. done.
  - assert (all_completed t1 = true) as H1 by (apply Hl; eauto).
    unfold save_readme. rewrite split_length_pos. unfold bind.
    pose proof (call_passes_iff_completed (call_env w n)
                  (nth 0 (split content fence) []) README_md) as Hc.
    destruct (write_codes_to_file (call_env w n) (nth 0 (split content fence) [])
                                  README_md) as [tr [s|ex]]; cbn [fst snd] in *.
    + destruct (startswith s (lit "Error")) eqn:Hs; unfold ret; cbn [fst snd app];
        rewrite ?app_nil_r; change (?a :: t1 ++ tr) with ([a] ++ t1 ++ tr);
        rewrite !all_completed_app, H1; simpl.
      * split.
        -- intros [= ->]. by vm_compute in Hs.
        -- intros [_ H]. apply Hc in H as (s' & [= <-] & H). congruence.
      * split; [|done]. intros _. split; [done|]. apply Hc. eauto.
    + cbn [fst snd app]. split.
      * intros H. by vm_compute in H.
      * change (?a :: (t1 ++ tr) ++ ?l) with ([a] ++ (t1 ++ tr) ++ l).
        rewrite !all_completed_app. intros [_ H].
        apply andb_true_iff in H as [_ H]. apply andb_true_iff in H as [H _].
        apply andb_true_iff in H as [_ H]. by apply Hc in H as (s' & H & _).
  - cbn [fst snd app]. split.
    + intros H. by vm_compute in H.
    + change (?a :: t1 ++ ?l) with ([a] ++ t1 ++ l).
      rewrite !all_completed_app. intros [_ H].
      apply andb_true_iff in H as [_ H]. apply andb_true_iff in H as [H _].
      by apply Hl in H as [n' H].
Qed.

Lemma success_iff_nothing_raised_witness :
  snd (_execute world_two_files []) = Normal msg_success.
Proof.
  apply (success_iff_nothing_raised world_two_files []).
  split; [vm_compute; eauto|vm_compute; reflexivity].
Defined.
